(** * Evaluate-SQL-Where-Clause: a shallow embedding of the WHERE evaluator

    The repository holds two generations of the same program:

    - [where.cpp] (module [V1]): conditions convert the cell with
      [std::stoi]/[std::stod] and let the exceptions escape; [Where::eval] is
      recursive on [OR].
    - the reworked file (module [V2]): an [Operator] catalog with [toString],
      conditions whose [getColumnValue] catches the conversion exceptions,
      and an iterative, short-circuiting [Where::eval].

    Both take the header by non-const reference and read it with
    [std::map::operator[]], which inserts a zero entry for an absent key. *)

From Stdlib Require Import ZArith String Ascii List Sorted Lia.
From Stdlib Require SpecFloat.
From stdpp Require Import base option list gmap strings.
From Equations Require Import Equations.
Import ListNotations.

Local Open Scope string_scope.
Local Open Scope Z_scope.

(** ** Types of the program *)

(** [typedef std::map<std::string, int> header_t;] *)
Abbreviation header_t := (gmap string Z).
(** [typedef std::vector<std::string> row_t;] *)
Abbreviation row_t := (list string).
(** [typedef int operator_t;] *)
Abbreviation operator_t := Z.

(** The two exceptions [std::stoi] and [std::stod] throw. *)
Inductive exn := invalid_argument | out_of_range.

(** The containers the program indexes with an unchecked [operator[]]. *)
Inductive container := vec_row | vec_conditions | arr_ops.

(** How a call can go wrong: a C++ exception leaves the function, or an
    unchecked index is past the end of its container (undefined behaviour in
    C++; the embedding stops there and names the container). *)
Inductive fault :=
| Throw (e : exn)
| OutOfBounds (c : container).

Inductive outcome (A : Type) :=
| Ok (a : A)
| Fault (f : fault).
Arguments Ok {A} a.
Arguments Fault {A} f.

(** What a call of [eval(header, row)] can reach: the two arguments passed by
    reference.  [evaluated] is a ghost log, absent from the program: the
    positions in [conditions] whose [eval] has been called, oldest first. *)
Record store := mkStore {
  header : header_t;
  row : row_t;
  evaluated : list nat
}.

Definition with_header (h : header_t) (s : store) : store :=
  mkStore h (row s) (evaluated s).

Definition log_eval (i : nat) (s : store) : store :=
  mkStore (header s) (row s) (evaluated s ++ [i]).

(** State and fault monad of the embedding. *)
Definition M (A : Type) : Type := store -> outcome A * store.

Definition ret {A} (a : A) : M A := fun s => (Ok a, s).
Definition raise {A} (f : fault) : M A := fun s => (Fault f, s).
Definition bind {A B} (m : M A) (k : A -> M B) : M B :=
  fun s => match m s with
           | (Ok a, s') => k a s'
           | (Fault f, s') => (Fault f, s')
           end.

Notation "'let*' x ':=' m 'in' k" := (bind m (fun x => k))
  (at level 10, x name, m at level 100, k at level 200).

(** [header[column]]: [std::map::operator[]] returns the mapped value and,
    when the key is absent, first inserts it with a value-initialised [int]. *)
Definition map_index (column : string) : M Z :=
  fun s => match header s !! column with
           | Some i => (Ok i, s)
           | None => (Ok 0, with_header (<[column := 0]> (header s)) s)
           end.

(** [row[i]] with [i : int]: the index is converted to [size_t], so a
    negative one is far past the end. *)
Definition vec_index (i : Z) : M string :=
  fun s => if i <? 0 then (Fault (OutOfBounds vec_row), s)
           else match row s !! Z.to_nat i with
                | Some cell => (Ok cell, s)
                | None => (Fault (OutOfBounds vec_row), s)
                end.

(** ** [std::stoi] *)

Definition INT_MIN : Z := -2147483648.
Definition INT_MAX : Z := 2147483647.

(** [isspace] in the "C" locale: space, and the controls 9 to 13. *)
Definition isspace (c : ascii) : bool :=
  let n := Z.of_N (N_of_ascii c) in
  (n =? 32) || ((9 <=? n) && (n <=? 13)).

Definition digit_of (c : ascii) : option Z :=
  let n := Z.of_N (N_of_ascii c) in
  if (48 <=? n) && (n <=? 57) then Some (n - 48) else None.

Fixpoint skip_space (s : string) : string :=
  match s with
  | String c rest => if isspace c then skip_space rest else s
  | EmptyString => s
  end.

(** The decimal digits at the front of [s], accumulated most significant
    first; [None] when [s] does not start with a digit. *)
Fixpoint digits_from (acc : Z) (seen : bool) (s : string) : option Z :=
  match s with
  | String c rest =>
      match digit_of c with
      | Some d => digits_from (10 * acc + d) true rest
      | None => if seen then Some acc else None
      end
  | EmptyString => if seen then Some acc else None
  end.

Inductive conv (T : Type) :=
| Converted (v : T)
| Raised (e : exn).
Arguments Converted {T} v.
Arguments Raised {T} e.

(** [std::stoi(str)] (base 10, no end position): leading white space is
    skipped, one sign is accepted, the longest run of digits is read and
    whatever follows is ignored.  No digit: [invalid_argument]; a value that
    does not fit [int]: [out_of_range]. *)
Definition stoi (str : string) : conv Z :=
  let body := skip_space str in
  let '(neg, ds) :=
    match body with
    | String "-"%char rest => (true, rest)
    | String "+"%char rest => (false, rest)
    | _ => (false, body)
    end in
  match digits_from 0 false ds with
  | None => Raised invalid_argument
  | Some n =>
      let v := if neg then - n else n in
      if (INT_MIN <=? v) && (v <=? INT_MAX) then Converted v
      else Raised out_of_range
  end.

(** The specification's wording, "the cell parses fully as an integer": an
    optional sign followed by digits only, up to the last character.  The
    program has no such test; this predicate only serves to compare its
    conversion with that wording. *)
Fixpoint all_digits (s : string) : bool :=
  match s with
  | String c rest =>
      match digit_of c with
      | Some _ => match rest with EmptyString => true | _ => all_digits rest end
      | None => false
      end
  | EmptyString => false
  end.

Definition parses_fully_as_int (s : string) : bool :=
  match s with
  | String "-"%char rest => all_digits rest
  | String "+"%char rest => all_digits rest
  | _ => all_digits s
  end.

(** ** The column types of [Condition<T>] *)

(** What the template needs of [T]: the conversion its specialisation applies
    to the cell, and the built-in comparison of two values, [None] when they
    are unordered (a floating-point NaN). *)
Class CellType (T : Type) := {
  from_cell : string -> conv T;
  cmp : T -> T -> option comparison
}.

#[export] Instance int_cell : CellType Z := {
  from_cell := stoi;
  cmp a b := Some (a ?= b)
}.

#[export] Instance string_cell : CellType string := {
  from_cell s := Converted s;
  cmp a b := Some (String.compare a b)
}.

(** [Condition<float>] converts with [(float)std::stod(cell)].  The decimal
    to binary rounding of [stod] is left open: any function from the cell to
    a float or one of the two exceptions gives a column type, with the IEEE
    comparison of [SpecFloat]. *)
Definition float_cell (stod_float : string -> conv SpecFloat.spec_float)
  : CellType SpecFloat.spec_float :=
  {| from_cell := stod_float; cmp := SpecFloat.SFcompare |}.

(** The six built-in comparisons, read off [cmp]. *)
Definition is_eq {T} `{CellType T} (a b : T) : bool :=
  match cmp a b with Some Eq => true | _ => false end.
Definition is_lt {T} `{CellType T} (a b : T) : bool :=
  match cmp a b with Some Lt => true | _ => false end.
Definition is_gt {T} `{CellType T} (a b : T) : bool :=
  match cmp a b with Some Gt => true | _ => false end.
Definition is_ne {T} `{CellType T} (a b : T) : bool := negb (is_eq a b).
Definition is_le {T} `{CellType T} (a b : T) : bool := is_lt a b || is_eq a b.
Definition is_ge {T} `{CellType T} (a b : T) : bool := is_gt a b || is_eq a b.

Definition inspect {A} (a : A) : {b : A | a = b} := exist _ a eq_refl.

(** The header a lookup of [column] leaves behind. *)
Definition touch_header (column : string) (h : header_t) : header_t :=
  match h !! column with
  | Some _ => h
  | None => <[column := 0]> h
  end.

(** The index [header[column]] yields. *)
Definition column_index (column : string) (h : header_t) : Z :=
  default 0 (h !! column).

(** ** The reworked program *)

Module V2.

Module Operator.
Definition EQ : operator_t := 0.
Definition NE : operator_t := 1.
Definition LT : operator_t := 2.
Definition LE : operator_t := 3.
Definition GT : operator_t := 4.
Definition GE : operator_t := 5.
Definition AND : operator_t := 7.
Definition OR : operator_t := 8.

(** [static std::string ops[8]] *)
Definition ops : list string :=
  ["="; "!="; "<"; "<="; ">"; ">="; "AND"; "OR"].

(** [return ops[op];] on a plain array: no bounds check. *)
Definition toString (op : operator_t) : outcome string :=
  if op <? 0 then Fault (OutOfBounds arr_ops)
  else match ops !! Z.to_nat op with
       | Some token => Ok token
       | None => Fault (OutOfBounds arr_ops)
       end.
End Operator.

Record Condition (T : Type) := mkCondition {
  column : string;
  op : operator_t;
  value : T
}.
Arguments mkCondition {T} column op value.
Arguments column {T} c.
Arguments op {T} c.
Arguments value {T} c.

(** [getColumnValue(header, row, val)]: [Some val] stands for [true] with
    [val] assigned, [None] for [false].  The generic body assigns the cell
    and returns [true]; the [int] and [float] specialisations convert
    inside a [try] whose two handlers return [false]. *)
Definition getColumnValue {T} `{CellType T} (c : Condition T) : M (option T) :=
  let* i := map_index (column c) in
  let* cell := vec_index i in
  match from_cell cell with
  | Converted val => ret (Some val)
  | Raised invalid_argument => ret None
  | Raised out_of_range => ret None
  end.

(** The [switch (op)] of [eval]. *)
Definition compare {T} `{CellType T} (o : operator_t) (val value : T) : bool :=
  if o =? Operator.EQ then is_eq val value
  else if o =? Operator.NE then is_ne val value
  else if o =? Operator.LT then is_lt val value
  else if o =? Operator.LE then is_le val value
  else if o =? Operator.GT then is_gt val value
  else if o =? Operator.GE then is_ge val value
  else false.

Definition eval {T} `{CellType T} (c : Condition T) : M bool :=
  let* got := getColumnValue c in
  match got with
  | Some val => ret (compare (op c) val (value c))
  | None => ret false (* conversion error *)
  end.

(** [ConditionBase*]: a condition of some column type behind the virtual
    [eval]. *)
Inductive ConditionBase :=
| AnyCondition {T : Type} {CT : CellType T} (c : Condition T).

Definition base_eval (cb : ConditionBase) : M bool :=
  match cb with AnyCondition c => eval c end.

Definition base_column (cb : ConditionBase) : string :=
  match cb with AnyCondition c => column c end.

Record Where := mkWhere {
  conditions : list ConditionBase;
  operators : list operator_t
}.

Definition AddCondition (c : ConditionBase) (w : Where) : Where :=
  mkWhere (conditions w ++ [c]) (operators w).

Definition AddOperator (o : operator_t) (w : Where) : Where :=
  mkWhere (conditions w) (operators w ++ [o]).

(** [conditions[i]->eval(header, row)], entered in the ghost log. *)
Definition call (w : Where) (i : nat) : M bool :=
  fun s => match conditions w !! i with
           | Some c => base_eval c (log_eval i s)
           | None => (Fault (OutOfBounds vec_conditions), s)
           end.

(** The [while] loop of [Where::eval], from the state [(op_index, result)]. *)
Equations? loop (w : Where) (op_index : nat) (result : bool) (s : store)
  : outcome bool * store by wf (length (operators w) - op_index)%nat lt :=
  loop w op_index result s with inspect (operators w !! op_index) := {
    | exist _ None _ => (Ok result, s)
    | exist _ (Some o) Hop =>
        if o =? Operator.AND then
          (* op_index++ *)
          if result then
            match call w (S op_index) s with
            | (Ok r, s') => loop w (S op_index) r s'
            | (Fault f, s') => (Fault f, s')
            end
          else loop w (S op_index) result s
        else
          (* op_index++ *)
          if result then (Ok true, s)
          else
            match call w (S op_index) s with
            | (Ok r, s') => loop w (S op_index) r s'
            | (Fault f, s') => (Fault f, s')
            end
  }.
Proof.
  all: apply lookup_lt_Some in Hop; lia.
Qed.

Definition Where_eval (w : Where) : M bool :=
  let* result := call w 0 in
  loop w 0 result.

End V2.

(** ** The program of [where.cpp] *)

Module V1.

(** The constants of [ConditionBase]. *)
Definition EQ : operator_t := 0.
Definition NE : operator_t := 1.
Definition LT : operator_t := 2.
Definition LE : operator_t := 3.
Definition GT : operator_t := 4.
Definition GE : operator_t := 5.

(** The constants of [Where]. *)
Definition AND : operator_t := 0.
Definition OR : operator_t := 1.

Record Condition (T : Type) := mkCondition {
  column : string;
  op : operator_t;
  value : T
}.
Arguments mkCondition {T} column op value.
Arguments column {T} c.
Arguments op {T} c.
Arguments value {T} c.

(** The [switch (op)] shared by the three specialisations of [eval]. *)
Definition compare {T} `{CellType T} (o : operator_t) (val value : T) : bool :=
  if o =? EQ then is_eq val value
  else if o =? NE then is_ne val value
  else if o =? LT then is_lt val value
  else if o =? LE then is_le val value
  else if o =? GT then is_gt val value
  else if o =? GE then is_ge val value
  else false.

(** [Condition<T>::eval]: [T val = convert(row[header[column]]);] with no
    handler around the conversion, then the [switch]. *)
Definition eval {T} `{CellType T} (c : Condition T) : M bool :=
  let* i := map_index (column c) in
  let* cell := vec_index i in
  match from_cell cell with
  | Converted val => ret (compare (op c) val (value c))
  | Raised e => raise (Throw e)
  end.

Inductive ConditionBase :=
| AnyCondition {T : Type} {CT : CellType T} (c : Condition T).

Definition base_eval (cb : ConditionBase) : M bool :=
  match cb with AnyCondition c => eval c end.

Definition base_column (cb : ConditionBase) : string :=
  match cb with AnyCondition c => column c end.

Record Where := mkWhere {
  conditions : list ConditionBase;
  operators : list operator_t
}.

Definition AddCondition (c : ConditionBase) (w : Where) : Where :=
  mkWhere (conditions w ++ [c]) (operators w).

Definition AddOperator (o : operator_t) (w : Where) : Where :=
  mkWhere (conditions w) (operators w ++ [o]).

Definition call (w : Where) (i : nat) : M bool :=
  fun s => match conditions w !! i with
           | Some c => base_eval c (log_eval i s)
           | None => (Fault (OutOfBounds vec_conditions), s)
           end.

(** Where control is inside [eval(header, row, op_index)]: at its first
    statement, or at the test of the [while] with the current [result]. *)
Inductive point :=
| Entry
| Loop (result : bool).

Definition rank (p : point) : nat :=
  match p with Entry => 1 | Loop _ => 0 end.

(** [eval(header, row, op_index)], recursive on [OR]. *)
Equations? eval_at (w : Where) (op_index : nat) (p : point) (s : store)
  : outcome bool * store
  by wf (2 * (length (operators w) - op_index) + rank p)%nat lt :=
  eval_at w op_index Entry s with call w op_index s := {
    | (Ok result, s') => eval_at w op_index (Loop result) s'
    | (Fault f, s') => (Fault f, s')
  };
  eval_at w op_index (Loop result) s with inspect (operators w !! op_index) := {
    | exist _ None _ => (Ok result, s)
    | exist _ (Some o) Hop =>
        if o =? AND then
          (* op_index++; result = result && conditions[op_index]->eval(..) *)
          if result then
            match call w (S op_index) s with
            | (Ok r, s') => eval_at w (S op_index) (Loop r) s'
            | (Fault f, s') => (Fault f, s')
            end
          else eval_at w (S op_index) (Loop false) s
        else
          (* op_index++; result = result || eval(header, row, op_index);
             break *)
          if result then (Ok true, s)
          else eval_at w (S op_index) Entry s
  }.
Proof.
  all: try (apply lookup_lt_Some in Hop); simpl; lia.
Qed.

(** [eval(header, row)]: [op_index] defaults to 0. *)
Definition Where_eval (w : Where) : M bool :=
  fun s => eval_at w 0 Entry s.

End V1.

(** ** The walk both versions of [Where::eval] perform

    After [conditions[0]], each operator is met with the condition to its
    right.  [steps] is that walk over the list of such pairs, for any
    evaluation [ceval] of a condition and any constant [AND].  It is used to
    reason about [V1.eval_at] and [V2.loop], which are shown equal to it. *)

Fixpoint steps {C : Type} (ceval : C -> M bool) (AND : operator_t)
  (i : nat) (result : bool) (l : list (operator_t * C))
  (s : store) : outcome bool * store :=
  match l with
  | [] => (Ok result, s)
  | (o, c) :: l' =>
      if o =? AND then
        if result then
          match ceval c (log_eval i s) with
          | (Ok r, s') => steps ceval AND (S i) r l' s'
          | (Fault f, s') => (Fault f, s')
          end
        else steps ceval AND (S i) false l' s
      else
        if result then (Ok true, s)
        else
          match ceval c (log_eval i s) with
          | (Ok r, s') => steps ceval AND (S i) r l' s'
          | (Fault f, s') => (Fault f, s')
          end
  end.

Definition walk {C : Type} (ceval : C -> M bool) (AND : operator_t)
  (c0 : C) (l : list (operator_t * C)) (s : store) : outcome bool * store :=
  match ceval c0 (log_eval 0 s) with
  | (Ok r, s') => steps ceval AND 1 r l s'
  | (Fault f, s') => (Fault f, s')
  end.

(** What a condition evaluates to under a header and a row. *)
Definition value_of {C : Type} (ceval : C -> M bool) (c : C)
  (h : header_t) (r : row_t) : outcome bool :=
  fst (ceval c (mkStore h r [])).

Definition holds_true {C : Type} (ceval : C -> M bool)
  (h : header_t) (r : row_t) (c : C) : Prop :=
  value_of ceval c h r = Ok true.

(** The same walk without the store: the outcome, and the conditions
    visited with their positions. *)
Fixpoint psteps {C : Type} (ceval : C -> M bool) (AND : operator_t)
  (h : header_t) (r : row_t) (i : nat) (result : bool)
  (l : list (operator_t * C)) : outcome bool * list (nat * C) :=
  match l with
  | [] => (Ok result, [])
  | (o, c) :: l' =>
      if o =? AND then
        if result then
          match value_of ceval c h r with
          | Ok b => let '(out, vis) := psteps ceval AND h r (S i) b l' in
                    (out, (i, c) :: vis)
          | Fault f => (Fault f, [(i, c)])
          end
        else psteps ceval AND h r (S i) false l'
      else
        if result then (Ok true, [])
        else
          match value_of ceval c h r with
          | Ok b => let '(out, vis) := psteps ceval AND h r (S i) b l' in
                    (out, (i, c) :: vis)
          | Fault f => (Fault f, [(i, c)])
          end
  end.

Definition pwalk {C : Type} (ceval : C -> M bool) (AND : operator_t)
  (h : header_t) (r : row_t) (c0 : C)
  (l : list (operator_t * C)) : outcome bool * list (nat * C) :=
  match value_of ceval c0 h r with
  | Ok b => let '(out, vis) := psteps ceval AND h r 1 b l in
            (out, (0%nat, c0) :: vis)
  | Fault f => (Fault f, [(0%nat, c0)])
  end.

(** The header after the lookups of the visited conditions. *)
Definition touch_all {C : Type} (ccol : C -> string) (vis : list (nat * C))
  (h : header_t) : header_t :=
  fold_left (fun h' ic => touch_header (ccol (snd ic)) h') vis h.

(** ** Closed forms of the lookups *)

(** The cell [row[i]] when the index is in range. *)
Definition cell_at (r : row_t) (i : Z) : option string :=
  if i <? 0 then None else r !! Z.to_nat i.

(** [Condition::eval] of the reworked program in closed form. *)
Definition V2_answer {T} `{CellType T} (c : V2.Condition T) (h : header_t)
  (r : row_t) : outcome bool :=
  match cell_at r (column_index (V2.column c) h) with
  | None => Fault (OutOfBounds vec_row)
  | Some cell =>
      match from_cell cell with
      | Converted val => Ok (V2.compare (V2.op c) val (V2.value c))
      | Raised _ => Ok false
      end
  end.

(** [Condition::eval] of [where.cpp] in closed form. *)
Definition V1_answer {T} `{CellType T} (c : V1.Condition T) (h : header_t)
  (r : row_t) : outcome bool :=
  match cell_at r (column_index (V1.column c) h) with
  | None => Fault (OutOfBounds vec_row)
  | Some cell =>
      match from_cell cell with
      | Converted val => Ok (V1.compare (V1.op c) val (V1.value c))
      | Raised e => Fault (Throw e)
      end
  end.

(** The pairs of an operator and the condition to its right. *)
Definition V2_pairs (w : V2.Where) : list (operator_t * V2.ConditionBase) :=
  zip (V2.operators w) (tail (V2.conditions w)).

Definition V1_pairs (w : V1.Where) : list (operator_t * V1.ConditionBase) :=
  zip (V1.operators w) (tail (V1.conditions w)).

(** ** AND-groups *)

(** The maximal runs of conditions joined by [AND], the runs being separated
    by [OR]: [c0] is the first condition, [ops] the operators and [cs] the
    conditions after [c0]. *)
Fixpoint and_groups {C : Type} (OR : operator_t) (c0 : C)
  (ops : list operator_t) (cs : list C) : list (list C) :=
  match ops, cs with
  | o :: ops', c :: cs' =>
      if o =? OR then [c0] :: and_groups OR c ops' cs'
      else match and_groups OR c ops' cs' with
           | g :: gs => (c0 :: g) :: gs
           | [] => [[c0]]
           end
  | _, _ => [[c0]]
  end.

(** The same partition read off the pairs of the walk: what is left of the
    run being walked, and the runs after it. *)
Fixpoint rest_groups {C : Type} (OR : operator_t) (l : list (operator_t * C))
  : list C * list (list C) :=
  match l with
  | [] => ([], [])
  | (o, c) :: l' =>
      let '(g, gs) := rest_groups OR l' in
      if o =? OR then ([], (c :: g) :: gs) else (c :: g, gs)
  end.

(** ** Vocabulary of the statements *)

(** A predicate as the builder is meant to leave it: N >= 1 conditions and
    N - 1 operators. *)
Definition V1_well_formed (w : V1.Where) : Prop :=
  length (V1.conditions w) = S (length (V1.operators w)).
Definition V2_well_formed (w : V2.Where) : Prop :=
  length (V2.conditions w) = S (length (V2.operators w)).

(** What one condition evaluates to under a header and a row. *)
Definition V1_holds (c : V1.ConditionBase) (h : header_t) (r : row_t)
  : outcome bool := fst (V1.base_eval c (mkStore h r [])).
Definition V2_holds (c : V2.ConditionBase) (h : header_t) (r : row_t)
  : outcome bool := fst (V2.base_eval c (mkStore h r [])).

(** The AND-groups of a predicate. *)
Definition V1_groups (w : V1.Where) : list (list V1.ConditionBase) :=
  match V1.conditions w with
  | [] => []
  | c0 :: cs => and_groups V1.OR c0 (V1.operators w) cs
  end.
Definition V2_groups (w : V2.Where) : list (list V2.ConditionBase) :=
  match V2.conditions w with
  | [] => []
  | c0 :: cs => and_groups V2.Operator.OR c0 (V2.operators w) cs
  end.

(** ** The sample table and predicates on it *)

Definition demo_header : header_t :=
  list_to_map [("name", 0); ("age", 1); ("gender", 2); ("score", 3); ("company", 4)].

Definition row_jenny : row_t := ["Jenny Ho"; "21"; "female"; "100"; "Huawei"].
Definition row_bill : row_t := ["Bill Gates"; "61"; "male"; "101"; "Microsoft"].
Definition row_dirty : row_t := ["Jenny Ho"; "12abc"; "female"; "n/a"; "Huawei"].

Definition on_jenny : store := mkStore demo_header row_jenny [].
Definition on_bill : store := mkStore demo_header row_bill [].
Definition on_dirty : store := mkStore demo_header row_dirty [].

(** [name != "Bill Gates" AND age > 60 OR gender = "female"] *)
Definition v1_mixed : V1.Where :=
  V1.AddCondition (V1.AnyCondition (V1.mkCondition "gender" V1.EQ "female"))
  (V1.AddOperator V1.OR
  (V1.AddCondition (V1.AnyCondition (V1.mkCondition "age" V1.GT 60))
  (V1.AddOperator V1.AND
  (V1.AddCondition (V1.AnyCondition (V1.mkCondition "name" V1.NE "Bill Gates"))
     (V1.mkWhere [] []))))).

Definition v2_mixed : V2.Where :=
  V2.AddCondition (V2.AnyCondition (V2.mkCondition "gender" V2.Operator.EQ "female"))
  (V2.AddOperator V2.Operator.OR
  (V2.AddCondition (V2.AnyCondition (V2.mkCondition "age" V2.Operator.GT 60))
  (V2.AddOperator V2.Operator.AND
  (V2.AddCondition (V2.AnyCondition (V2.mkCondition "name" V2.Operator.NE "Bill Gates"))
     (V2.mkWhere [] []))))).

(** [name != "Bill Gates" AND age > 60 AND gender = 1]: the last condition
    converts a text cell to [int]. *)
Definition v1_all_and : V1.Where :=
  V1.mkWhere
    [V1.AnyCondition (V1.mkCondition "name" V1.NE "Bill Gates");
     V1.AnyCondition (V1.mkCondition "age" V1.GT 60);
     V1.AnyCondition (V1.mkCondition "gender" V1.EQ 1)]
    [V1.AND; V1.AND].

Definition v2_all_and : V2.Where :=
  V2.mkWhere
    [V2.AnyCondition (V2.mkCondition "name" V2.Operator.NE "Bill Gates");
     V2.AnyCondition (V2.mkCondition "age" V2.Operator.GT 60);
     V2.AnyCondition (V2.mkCondition "gender" V2.Operator.EQ 1)]
    [V2.Operator.AND; V2.Operator.AND].

(** [age > 60 OR gender = "female" OR gender = 1] *)
Definition v1_all_or : V1.Where :=
  V1.mkWhere
    [V1.AnyCondition (V1.mkCondition "age" V1.GT 60);
     V1.AnyCondition (V1.mkCondition "gender" V1.EQ "female");
     V1.AnyCondition (V1.mkCondition "gender" V1.EQ 1)]
    [V1.OR; V1.OR].

Definition v2_all_or : V2.Where :=
  V2.mkWhere
    [V2.AnyCondition (V2.mkCondition "age" V2.Operator.GT 60);
     V2.AnyCondition (V2.mkCondition "gender" V2.Operator.EQ "female");
     V2.AnyCondition (V2.mkCondition "gender" V2.Operator.EQ 1)]
    [V2.Operator.OR; V2.Operator.OR].

(** [surname = "Jenny Ho"], on a header without [surname]. *)
Definition v1_surname : V1.Condition string :=
  V1.mkCondition "surname" V1.EQ "Jenny Ho".
Definition v2_surname : V2.Condition string :=
  V2.mkCondition "surname" V2.Operator.EQ "Jenny Ho".

(** [age = 12] *)
Definition v2_age_is_12 : V2.Condition Z := V2.mkCondition "age" V2.Operator.EQ 12.
(** [score > 60], as an [int] and as a [float] condition. *)
Definition v1_score_int : V1.Condition Z := V1.mkCondition "score" V1.GT 60.
Definition v2_score_int : V2.Condition Z := V2.mkCondition "score" V2.Operator.GT 60.
Definition v2_score_float : V2.Condition SpecFloat.spec_float :=
  V2.mkCondition "score" V2.Operator.GT (SpecFloat.S754_zero false).
(** [age <9> 60]: 9 is no comparison operator. *)
Definition v1_age_op9 : V1.Condition Z := V1.mkCondition "age" 9 60.
Definition v2_age_op9 : V2.Condition Z := V2.mkCondition "age" 9 60.


(** ** More sample data *)

Definition row_paul : row_t := ["Paul Allen"; "64"; "male"; "102"; "Microsoft"].
Definition on_paul : store := mkStore demo_header row_paul [].
Definition row_john : row_t := ["John Doe"; "20"; "male"; "110.5"; "IBX"].

(** ** A predicate of [where.cpp] written for the reworked program

    The two [main] functions build the same predicate with the two sets of
    constants.  [upgrade] is that rewriting: each condition keeps its
    column, operator and literal, and each logical operator is replaced by
    the constant of the same name. *)

Definition upgrade_condition (cb : V1.ConditionBase) : V2.ConditionBase :=
  match cb with
  | V1.AnyCondition c =>
      V2.AnyCondition (V2.mkCondition (V1.column c) (V1.op c) (V1.value c))
  end.

Definition upgrade_operator (o : operator_t) : operator_t :=
  if o =? V1.AND then V2.Operator.AND else V2.Operator.OR.

Definition upgrade (w : V1.Where) : V2.Where :=
  V2.mkWhere (map upgrade_condition (V1.conditions w))
             (map upgrade_operator (V1.operators w)).

(** What the test [operators[op_index] == AND] makes of an operator: [AND]
    or, for every other value, [OR]. *)
Definition V1_as_tested (o : operator_t) : operator_t :=
  if o =? V1.AND then V1.AND else V1.OR.
Definition V2_as_tested (o : operator_t) : operator_t :=
  if o =? V2.Operator.AND then V2.Operator.AND else V2.Operator.OR.

(** ** The fluent chain of the two [main] functions

    [w->AddCondition(c0)->AddOperator(o1)->AddCondition(c1)->...] on a new
    [Where]: a first condition, then operators each followed by a
    condition. *)

Definition V1_chain (c0 : V1.ConditionBase)
  (rest : list (operator_t * V1.ConditionBase)) : V1.Where :=
  fold_left (fun w oc => V1.AddCondition (snd oc) (V1.AddOperator (fst oc) w))
            rest (V1.AddCondition c0 (V1.mkWhere [] [])).

Definition V2_chain (c0 : V2.ConditionBase)
  (rest : list (operator_t * V2.ConditionBase)) : V2.Where :=
  fold_left (fun w oc => V2.AddCondition (snd oc) (V2.AddOperator (fst oc) w))
            rest (V2.AddCondition c0 (V2.mkWhere [] [])).

(** ** The loop of [main] over the table

    [for (i ...) if (w->eval(header, table[i])) { for (j ...) std::cout <<
    table[i][j] << '\t'; std::cout << std::endl; }].  The header is the one
    object passed to every call, so what a call inserts is seen by the next
    rows.  The loop yields what it printed, the fault that ended it (an
    exception nobody catches, or an index out of range) if any, and the
    header at the end. *)

Definition TAB : string := String (ascii_of_nat 9) "".
Definition ENDL : string := String (ascii_of_nat 10) "".

Definition print_row (r : row_t) : string :=
  fold_right (fun cell out => (cell ++ TAB ++ out)%string) ENDL r.

Definition print_rows (rows : list row_t) : string :=
  fold_right (fun r out => (print_row r ++ out)%string) "" rows.

Fixpoint V1_main_loop (w : V1.Where) (h : header_t) (table : list row_t)
  : string * option fault * header_t :=
  match table with
  | [] => ("", None, h)
  | r :: rest =>
      match V1.Where_eval w (mkStore h r []) with
      | (Ok b, s') =>
          let '(out, stop, h') := V1_main_loop w (header s') rest in
          (((if b then print_row r else "") ++ out)%string, stop, h')
      | (Fault f, s') => ("", Some f, header s')
      end
  end.

Fixpoint V2_main_loop (w : V2.Where) (h : header_t) (table : list row_t)
  : string * option fault * header_t :=
  match table with
  | [] => ("", None, h)
  | r :: rest =>
      match V2.Where_eval w (mkStore h r []) with
      | (Ok b, s') =>
          let '(out, stop, h') := V2_main_loop w (header s') rest in
          (((if b then print_row r else "") ++ out)%string, stop, h')
      | (Fault f, s') => ("", Some f, header s')
      end
  end.

(** Whether [eval] returns true on a row under a header. *)
Definition V1_matches (w : V1.Where) (h : header_t) (r : row_t) : bool :=
  match fst (V1.Where_eval w (mkStore h r [])) with
  | Ok true => true
  | _ => false
  end.
Definition V2_matches (w : V2.Where) (h : header_t) (r : row_t) : bool :=
  match fst (V2.Where_eval w (mkStore h r [])) with
  | Ok true => true
  | _ => false
  end.

Definition demo_table : list row_t := [row_jenny; row_bill; row_paul].

(** Whether a text starts with a decimal digit. *)
Definition starts_with_digit (t : string) : bool :=
  match t with
  | String c _ => match digit_of c with Some _ => true | None => false end
  | EmptyString => false
  end.

(** The end of [stoi]: from the sign and the digits read to the result. *)
Definition stoi_finish (neg : bool) (ds : option Z) : conv Z :=
  match ds with
  | None => Raised invalid_argument
  | Some n =>
      let v := if neg then - n else n in
      if (INT_MIN <=? v) && (v <=? INT_MAX) then Converted v
      else Raised out_of_range
  end.

(** [gender = 1 OR gender = "female"]: the first condition converts a text
    cell to [int]. *)
Definition v1_poison_or : V1.Where :=
  V1.mkWhere
    [V1.AnyCondition (V1.mkCondition "gender" V1.EQ 1);
     V1.AnyCondition (V1.mkCondition "gender" V1.EQ "female")]
    [V1.OR].

Definition v2_poison_or : V2.Where :=
  V2.mkWhere
    [V2.AnyCondition (V2.mkCondition "gender" V2.Operator.EQ 1);
     V2.AnyCondition (V2.mkCondition "gender" V2.Operator.EQ "female")]
    [V2.Operator.OR].

(** * Proofs *)

Example stoi_ex1 : stoi "  -42abc" = Converted (-42).
Proof. reflexivity. Qed.


(** ** The walk and its store-free form *)

Section Walk.
Context {C : Type}.
Variable ceval : C -> M bool.
Variable ccol : C -> string.
Variable AND : operator_t.

Hypothesis ceval_spec : forall c s,
  ceval c s =
    (value_of ceval c (header s) (row s),
     with_header (touch_header (ccol c) (header s)) s).
Hypothesis value_of_touch : forall c k h r,
  value_of ceval c (touch_header k h) r = value_of ceval c h r.

Lemma psteps_touch k h r i result l :
  psteps ceval AND (touch_header k h) r i result l
  = psteps ceval AND h r i result l.
Proof using value_of_touch.
  revert i result.
  induction l as [|[o c] l IH]; intros i result; simpl; [reflexivity|].
  rewrite value_of_touch.
  destruct (o =? AND), result, (value_of ceval c h r); try rewrite IH; reflexivity.
Qed.

Lemma steps_psteps l : forall i result s,
  steps ceval AND i result l s =
    (fst (psteps ceval AND (header s) (row s) i result l),
     mkStore
       (touch_all ccol (snd (psteps ceval AND (header s) (row s) i result l))
                  (header s))
       (row s)
       (evaluated s
          ++ map fst (snd (psteps ceval AND (header s) (row s) i result l)))).
Proof using ceval_spec value_of_touch.
  induction l as [|[o c] l IH]; intros i result s; simpl.
  { rewrite app_nil_r. destruct s; reflexivity. }
  assert (Hvisit :
    match ceval c (log_eval i s) with
    | (Ok r, s') => steps ceval AND (S i) r l s'
    | (Fault f, s') => (Fault f, s')
    end =
    (fst match value_of ceval c (header s) (row s) with
         | Ok b =>
             let '(out, vis) := psteps ceval AND (header s) (row s) (S i) b l in
             (out, (i, c) :: vis)
         | Fault f => (Fault f, [(i, c)])
         end,
     mkStore
       (touch_all ccol (snd match value_of ceval c (header s) (row s) with
         | Ok b =>
             let '(out, vis) := psteps ceval AND (header s) (row s) (S i) b l in
             (out, (i, c) :: vis)
         | Fault f => (Fault f, [(i, c)])
         end) (header s))
       (row s)
       (evaluated s ++ map fst (snd match value_of ceval c (header s) (row s) with
         | Ok b =>
             let '(out, vis) := psteps ceval AND (header s) (row s) (S i) b l in
             (out, (i, c) :: vis)
         | Fault f => (Fault f, [(i, c)])
         end)))).
  { rewrite ceval_spec. simpl.
    destruct (value_of ceval c (header s) (row s)) as [b|f]; simpl.
    - rewrite IH. simpl. rewrite psteps_touch.
      destruct (psteps ceval AND (header s) (row s) (S i) b l) as [out vis]; simpl.
      rewrite <- app_assoc. reflexivity.
    - reflexivity. }
  destruct (o =? AND), result; auto.
  simpl. rewrite app_nil_r. destruct s; reflexivity.
Qed.

Lemma walk_pwalk c0 l s :
  walk ceval AND c0 l s =
    (fst (pwalk ceval AND (header s) (row s) c0 l),
     mkStore
       (touch_all ccol (snd (pwalk ceval AND (header s) (row s) c0 l)) (header s))
       (row s)
       (evaluated s ++ map fst (snd (pwalk ceval AND (header s) (row s) c0 l)))).
Proof using ceval_spec value_of_touch.
  unfold walk, pwalk. rewrite ceval_spec. simpl.
  destruct (value_of ceval c0 (header s) (row s)) as [b|f]; simpl; [|reflexivity].
  rewrite steps_psteps. simpl. rewrite psteps_touch.
  destruct (psteps ceval AND (header s) (row s) 1 b l) as [out vis]; simpl.
  rewrite <- app_assoc. reflexivity.
Qed.

End Walk.

(** ** Facts about the lookups *)


Lemma column_index_touch k column (h : header_t) :
  column_index column (touch_header k h) = column_index column h.
Proof.
  unfold column_index, touch_header.
  destruct (h !! k) eqn:Hk; [reflexivity|].
  destruct (decide (k = column)) as [->|Hne].
  - rewrite lookup_insert_eq, Hk. reflexivity.
  - rewrite lookup_insert_ne by assumption. reflexivity.
Qed.

Lemma touch_header_subseteq k (h : header_t) : h ⊆ touch_header k h.
Proof.
  unfold touch_header. destruct (h !! k) eqn:Hk; [reflexivity|].
  apply insert_subseteq. assumption.
Qed.

Lemma touch_header_present k (h : header_t) :
  is_Some (h !! k) -> touch_header k h = h.
Proof. intros [i Hi]. unfold touch_header. rewrite Hi. reflexivity. Qed.

Lemma map_index_spec column s :
  map_index column s =
    (Ok (column_index column (header s)),
     with_header (touch_header column (header s)) s).
Proof.
  unfold map_index, column_index, touch_header.
  destruct (header s !! column); simpl; [|reflexivity].
  destruct s; reflexivity.
Qed.

Lemma vec_index_spec i s :
  vec_index i s =
    (match cell_at (row s) i with
     | Some cell => Ok cell
     | None => Fault (OutOfBounds vec_row)
     end, s).
Proof.
  unfold vec_index, cell_at. destruct (i <? 0); [reflexivity|].
  destruct (row s !! Z.to_nat i); reflexivity.
Qed.


Lemma V2_eval_spec {T} `{CellType T} (c : V2.Condition T) s :
  V2.eval c s =
    (V2_answer c (header s) (row s),
     with_header (touch_header (V2.column c) (header s)) s).
Proof.
  unfold V2.eval, V2.getColumnValue, V2_answer, bind.
  rewrite map_index_spec, vec_index_spec. simpl.
  destruct (cell_at (row s) (column_index (V2.column c) (header s)));
    [|reflexivity].
  destruct (from_cell s0) as [val|[]]; reflexivity.
Qed.


Lemma V1_eval_spec {T} `{CellType T} (c : V1.Condition T) s :
  V1.eval c s =
    (V1_answer c (header s) (row s),
     with_header (touch_header (V1.column c) (header s)) s).
Proof.
  unfold V1.eval, V1_answer, bind.
  rewrite map_index_spec, vec_index_spec. simpl.
  destruct (cell_at (row s) (column_index (V1.column c) (header s)));
    [|reflexivity].
  destruct (from_cell s0) as [val|e]; reflexivity.
Qed.

Lemma V2_base_eval_spec c s :
  V2.base_eval c s =
    (value_of V2.base_eval c (header s) (row s),
     with_header (touch_header (V2.base_column c) (header s)) s).
Proof.
  destruct c as [T CT c]. unfold value_of. simpl.
  rewrite !V2_eval_spec. reflexivity.
Qed.

Lemma V2_value_of_touch c k h r :
  value_of V2.base_eval c (touch_header k h) r = value_of V2.base_eval c h r.
Proof.
  destruct c as [T CT c]. unfold value_of. simpl.
  rewrite !V2_eval_spec. simpl. unfold V2_answer.
  rewrite column_index_touch. reflexivity.
Qed.

Lemma V1_base_eval_spec c s :
  V1.base_eval c s =
    (value_of V1.base_eval c (header s) (row s),
     with_header (touch_header (V1.base_column c) (header s)) s).
Proof.
  destruct c as [T CT c]. unfold value_of. simpl.
  rewrite !V1_eval_spec. reflexivity.
Qed.

Lemma V1_value_of_touch c k h r :
  value_of V1.base_eval c (touch_header k h) r = value_of V1.base_eval c h r.
Proof.
  destruct c as [T CT c]. unfold value_of. simpl.
  rewrite !V1_eval_spec. simpl. unfold V1_answer.
  rewrite column_index_touch. reflexivity.
Qed.

(** ** The loops are the walk *)

(** The loop of [V2.Where_eval], one iteration unfolded. *)
Lemma V2_loop_unfold w op_index result s :
  V2.loop w op_index result s =
    match V2.operators w !! op_index with
    | None => (Ok result, s)
    | Some o =>
        if o =? V2.Operator.AND then
          if result then
            match V2.call w (S op_index) s with
            | (Ok r, s') => V2.loop w (S op_index) r s'
            | (Fault f, s') => (Fault f, s')
            end
          else V2.loop w (S op_index) result s
        else
          if result then (Ok true, s)
          else
            match V2.call w (S op_index) s with
            | (Ok r, s') => V2.loop w (S op_index) r s'
            | (Fault f, s') => (Fault f, s')
            end
    end.
Proof.
  funelim (V2.loop w op_index result s);
    match goal with E : V2.operators _ !! _ = _ |- _ => rewrite E end;
    reflexivity.
Qed.

(** [V1.eval_at], one step unfolded. *)
Lemma V1_eval_at_unfold w op_index p s :
  V1.eval_at w op_index p s =
    match p with
    | V1.Entry =>
        match V1.call w op_index s with
        | (Ok result, s') => V1.eval_at w op_index (V1.Loop result) s'
        | (Fault f, s') => (Fault f, s')
        end
    | V1.Loop result =>
        match V1.operators w !! op_index with
        | None => (Ok result, s)
        | Some o =>
            if o =? V1.AND then
              if result then
                match V1.call w (S op_index) s with
                | (Ok r, s') => V1.eval_at w (S op_index) (V1.Loop r) s'
                | (Fault f, s') => (Fault f, s')
                end
              else V1.eval_at w (S op_index) (V1.Loop false) s
            else
              if result then (Ok true, s)
              else V1.eval_at w (S op_index) V1.Entry s
        end
    end.
Proof.
  funelim (V1.eval_at w op_index p s);
    try match goal with E : V1.operators _ !! _ = _ |- _ => rewrite E end;
    try match goal with E : V1.call _ _ _ = _ |- _ => rewrite E end;
    reflexivity.
Qed.

Lemma V2_loop_steps w : forall n op_index result s,
  length (V2.conditions w) = S (length (V2.operators w)) ->
  (length (V2.operators w) - op_index = n)%nat ->
  V2.loop w op_index result s =
    steps V2.base_eval V2.Operator.AND (S op_index) result
      (zip (drop op_index (V2.operators w))
           (drop (S op_index) (V2.conditions w))) s.
Proof.
  induction n as [|n IH]; intros i result s Hwf Hn; rewrite V2_loop_unfold.
  - rewrite drop_ge by lia. rewrite lookup_ge_None_2 by lia. reflexivity.
  - destruct (lookup_lt_is_Some_2 (V2.operators w) i) as [o Ho]; [lia|].
    destruct (lookup_lt_is_Some_2 (V2.conditions w) (S i)) as [c Hc]; [lia|].
    rewrite (drop_S _ _ _ Ho), (drop_S _ _ _ Hc), Ho. simpl.
    unfold V2.call. rewrite Hc.
    destruct (o =? V2.Operator.AND), result; try reflexivity;
      try (apply IH; [assumption|lia]).
    all: destruct (V2.base_eval c (log_eval (S i) s)) as [[r|f] s'];
      [apply IH; [assumption|lia] | reflexivity].
Qed.

Lemma V1_eval_at_steps w : forall n op_index result s,
  length (V1.conditions w) = S (length (V1.operators w)) ->
  (length (V1.operators w) - op_index = n)%nat ->
  V1.eval_at w op_index (V1.Loop result) s =
    steps V1.base_eval V1.AND (S op_index) result
      (zip (drop op_index (V1.operators w))
           (drop (S op_index) (V1.conditions w))) s.
Proof.
  induction n as [|n IH]; intros i result s Hwf Hn; rewrite V1_eval_at_unfold.
  - rewrite drop_ge by lia. rewrite lookup_ge_None_2 by lia. reflexivity.
  - destruct (lookup_lt_is_Some_2 (V1.operators w) i) as [o Ho]; [lia|].
    destruct (lookup_lt_is_Some_2 (V1.conditions w) (S i)) as [c Hc]; [lia|].
    rewrite (drop_S _ _ _ Ho), (drop_S _ _ _ Hc), Ho. simpl.
    destruct (o =? V1.AND), result; try reflexivity;
      try (apply IH; [assumption|lia]).
    + unfold V1.call. rewrite Hc.
      destruct (V1.base_eval c (log_eval (S i) s)) as [[r|f] s'];
        [apply IH; [assumption|lia] | reflexivity].
    + rewrite V1_eval_at_unfold. unfold V1.call. rewrite Hc.
      destruct (V1.base_eval c (log_eval (S i) s)) as [[r|f] s'];
        [apply IH; [assumption|lia] | reflexivity].
Qed.


Lemma V2_eval_walk w c0 s :
  length (V2.conditions w) = S (length (V2.operators w)) ->
  V2.conditions w !! 0%nat = Some c0 ->
  V2.Where_eval w s = walk V2.base_eval V2.Operator.AND c0 (V2_pairs w) s.
Proof.
  intros Hwf H0. unfold V2.Where_eval, walk, bind, V2.call, V2_pairs.
  rewrite H0.
  destruct (V2.base_eval c0 (log_eval 0 s)) as [[r|f] s']; [|reflexivity].
  rewrite (V2_loop_steps w _ 0 r s' Hwf eq_refl).
  destruct (V2.conditions w); [discriminate|reflexivity].
Qed.

Lemma V1_eval_walk w c0 s :
  length (V1.conditions w) = S (length (V1.operators w)) ->
  V1.conditions w !! 0%nat = Some c0 ->
  V1.Where_eval w s = walk V1.base_eval V1.AND c0 (V1_pairs w) s.
Proof.
  intros Hwf H0. unfold V1.Where_eval, walk, V1_pairs.
  rewrite V1_eval_at_unfold. unfold V1.call. rewrite H0.
  destruct (V1.base_eval c0 (log_eval 0 s)) as [[r|f] s']; [|reflexivity].
  rewrite (V1_eval_at_steps w _ 0 r s' Hwf eq_refl).
  destruct (V1.conditions w); [discriminate|reflexivity].
Qed.


Lemma and_groups_rest {C : Type} (OR : operator_t) (ops : list operator_t) :
  forall (cs : list C) (c0 : C),
  and_groups OR c0 ops cs =
    (c0 :: fst (rest_groups OR (zip ops cs))) :: snd (rest_groups OR (zip ops cs)).
Proof.
  induction ops as [|o ops IH]; intros [|c cs] c0; simpl; try reflexivity.
  rewrite IH.
  destruct (rest_groups OR (zip ops cs)) as [g gs]; simpl.
  destruct (o =? OR); reflexivity.
Qed.

(** ** Facts about the walk without the store *)

Section WalkFacts.
Context {C : Type}.
Variable ceval : C -> M bool.
Variables AND OR : operator_t.
Variable h : header_t.
Variable r : row_t.

Lemma psteps_groups l : forall i result b,
  AND <> OR ->
  Forall (fun oc => fst oc = AND \/ fst oc = OR) l ->
  fst (psteps ceval AND h r i result l) = Ok b ->
  (b = true <->
     (result = true /\ Forall (holds_true ceval h r) (fst (rest_groups OR l)))
     \/ Exists (Forall (holds_true ceval h r)) (snd (rest_groups OR l))).
Proof.
  induction l as [|[o c] l IH]; intros i result b Hne Hops Hrun; simpl in *.
  - inversion Hrun; subst. rewrite Exists_nil. intuition.
  - apply Forall_cons in Hops as [Ho Hops]. simpl in Ho.
    destruct (rest_groups OR l) as [g gs] eqn:Hg; simpl in *.
    assert (Hvisit :
      fst match value_of ceval c h r with
          | Ok b0 => let '(out, vis) := psteps ceval AND h r (S i) b0 l in
                     (out, (i, c) :: vis)
          | Fault f => (Fault f, [(i, c)])
          end = Ok b ->
      (b = true <->
         (holds_true ceval h r c /\ Forall (holds_true ceval h r) g)
         \/ Exists (Forall (holds_true ceval h r)) gs)).
    { intros Hb. unfold holds_true at 1.
      destruct (value_of ceval c h r) as [b0|f]; [|discriminate].
      specialize (IH (S i) b0 b Hne Hops).
      destruct (psteps ceval AND h r (S i) b0 l) as [out vis]; simpl in *.
      rewrite (IH Hb).
      split; (intros [[H1 H2]|H3]; [left; split; [congruence|exact H2]|right; exact H3]). }
    destruct Ho as [->| ->].
    + rewrite Z.eqb_refl in Hrun.
      destruct (AND =? OR) eqn:E; [apply Z.eqb_eq in E; contradiction|]. simpl.
      destruct result.
      * rewrite (Hvisit Hrun), Forall_cons. intuition.
      * rewrite (IH (S i) false b Hne Hops Hrun). intuition discriminate.
    + destruct (OR =? AND) eqn:E; [apply Z.eqb_eq in E; congruence|].
      rewrite Z.eqb_refl. simpl.
      destruct result.
      * inversion Hrun; subst. intuition.
      * rewrite (Hvisit Hrun), Exists_cons, Forall_cons.
        intuition discriminate.
Qed.

Lemma pwalk_groups c0 l b :
  AND <> OR ->
  Forall (fun oc => fst oc = AND \/ fst oc = OR) l ->
  fst (pwalk ceval AND h r c0 l) = Ok b ->
  (b = true <->
     Exists (Forall (holds_true ceval h r))
       ((c0 :: fst (rest_groups OR l)) :: snd (rest_groups OR l))).
Proof.
  intros Hne Hops. unfold pwalk.
  destruct (value_of ceval c0 h r) as [b0|f] eqn:H0; [|discriminate].
  pose proof (psteps_groups l 1 b0 b Hne Hops) as Hl.
  destruct (psteps ceval AND h r 1 b0 l) as [out vis]; simpl in *.
  intros Hb. rewrite (Hl Hb), Exists_cons, Forall_cons. unfold holds_true at 3.
  rewrite H0.
  split; (intros [[H1 H2]|H3]; [left; split; [congruence|exact H2]|right; exact H3]).
Qed.

(** A fault of the walk is the fault of one of its conditions. *)
Lemma psteps_fault l : forall i result f,
  fst (psteps ceval AND h r i result l) = Fault f ->
  exists c, c ∈ map snd l /\ value_of ceval c h r = Fault f.
Proof.
  induction l as [|[o c] l IH]; intros i result f Hrun; simpl in *;
    [discriminate|].
  assert (Hvisit :
    fst match value_of ceval c h r with
        | Ok b0 => let '(out, vis) := psteps ceval AND h r (S i) b0 l in
                   (out, (i, c) :: vis)
        | Fault f => (Fault f, [(i, c)])
        end = Fault f ->
    exists c', c' ∈ c :: map snd l /\ value_of ceval c' h r = Fault f).
  { destruct (value_of ceval c h r) as [b0|f0] eqn:Hc.
    - specialize (IH (S i) b0 f).
      destruct (psteps ceval AND h r (S i) b0 l) as [out vis]; simpl in *.
      intros Hf. destruct (IH Hf) as (c' & Hin & Hc').
      exists c'. split; [right; exact Hin|exact Hc'].
    - simpl. intros Hf. exists c. split; [left|congruence]. }
  destruct (o =? AND), result; auto; try discriminate.
  destruct (IH _ _ _ Hrun) as (c' & Hin & Hc').
  exists c'. split; [right; exact Hin|exact Hc'].
Qed.

Lemma pwalk_fault c0 l f :
  fst (pwalk ceval AND h r c0 l) = Fault f ->
  exists c, c ∈ c0 :: map snd l /\ value_of ceval c h r = Fault f.
Proof.
  unfold pwalk. destruct (value_of ceval c0 h r) as [b0|f0] eqn:H0.
  - pose proof (psteps_fault l 1 b0 f) as Hl.
    destruct (psteps ceval AND h r 1 b0 l) as [out vis]; simpl in *.
    intros Hf. destruct (Hl Hf) as (c' & Hin & Hc').
    exists c'. split; [right; exact Hin|exact Hc'].
  - simpl. intros Hf. exists c0. split; [left|congruence].
Qed.

(** The visited conditions are met in the order of the list, each at most
    once. *)
Lemma psteps_visits l : forall i result,
  snd (psteps ceval AND h r i result l)
    `sublist_of` zip (seq i (length l)) (map snd l).
Proof.
  induction l as [|[o c] l IH]; intros i result; simpl; [constructor|].
  assert (Hvisit :
    snd match value_of ceval c h r with
        | Ok b0 => let '(out, vis) := psteps ceval AND h r (S i) b0 l in
                   (out, (i, c) :: vis)
        | Fault f => (Fault f, [(i, c)])
        end `sublist_of` (i, c) :: zip (seq (S i) (length l)) (map snd l)).
  { destruct (value_of ceval c h r) as [b0|f0].
    - specialize (IH (S i) b0).
      destruct (psteps ceval AND h r (S i) b0 l) as [out vis]; simpl in *.
      apply sublist_skip. exact IH.
    - simpl. apply sublist_skip, sublist_nil_l. }
  destruct (o =? AND), result; auto.
  - apply sublist_cons. apply IH.
  - apply sublist_nil_l.
Qed.

Lemma pwalk_visits c0 l :
  snd (pwalk ceval AND h r c0 l)
    `sublist_of` zip (seq 0 (S (length l))) (c0 :: map snd l).
Proof.
  unfold pwalk. simpl. destruct (value_of ceval c0 h r) as [b0|f0].
  - pose proof (psteps_visits l 1 b0) as Hl.
    destruct (psteps ceval AND h r 1 b0 l) as [out vis]; simpl in *.
    apply sublist_skip. exact Hl.
  - simpl. apply sublist_skip, sublist_nil_l.
Qed.

End WalkFacts.

(** ** Walks with a single kind of operator *)

Section OneOperator.
Context {C : Type}.
Variable ceval : C -> M bool.
Variable AND : operator_t.
Variable h : header_t.
Variable r : row_t.

(** Only [AND]: once [result] is false nothing more is evaluated. *)
Lemma psteps_and_false l : forall i,
  Forall (fun o => o = AND) (map fst l) ->
  psteps ceval AND h r i false l = (Ok false, []).
Proof.
  induction l as [|[o c] l IH]; intros i Hops; simpl in *; [reflexivity|].
  apply Forall_cons in Hops as [-> Hops].
  rewrite Z.eqb_refl. apply IH, Hops.
Qed.

Lemma psteps_and_iff l : forall i result b,
  Forall (fun o => o = AND) (map fst l) ->
  fst (psteps ceval AND h r i result l) = Ok b ->
  (b = true <-> result = true /\ Forall (holds_true ceval h r) (map snd l)).
Proof.
  induction l as [|[o c] l IH]; intros i result b Hops Hrun; simpl in *.
  - inversion Hrun; subst. intuition.
  - apply Forall_cons in Hops as [-> Hops].
    rewrite Z.eqb_refl in Hrun. rewrite Forall_cons. unfold holds_true at 1.
    destruct result.
    + destruct (value_of ceval c h r) as [b0|f]; [|discriminate].
      specialize (IH (S i) b0 b Hops).
      destruct (psteps ceval AND h r (S i) b0 l) as [out vis]; simpl in *.
      rewrite (IH Hrun).
      split; [intros [-> H2]; auto | intros [_ [H2 H3]]; split; [congruence|exact H3]].
    + rewrite (IH (S i) false b Hops Hrun). intuition discriminate.
Qed.

Lemma psteps_and_first_false l : forall i k c,
  Forall (fun o => o = AND) (map fst l) ->
  map snd l !! k = Some c ->
  value_of ceval c h r = Ok false ->
  (forall j c', (j < k)%nat -> map snd l !! j = Some c' ->
                holds_true ceval h r c') ->
  fst (psteps ceval AND h r i true l) = Ok false
  /\ map fst (snd (psteps ceval AND h r i true l)) = seq i (S k).
Proof.
  induction l as [|[o c0] l IH]; intros i k c Hops Hk Hc Hbefore;
    simpl in *; [discriminate|].
  apply Forall_cons in Hops as [-> Hops]. rewrite Z.eqb_refl.
  destruct k as [|k]; simpl in Hk.
  - inversion Hk; subst c0. rewrite Hc.
    rewrite (psteps_and_false l (S i) Hops). simpl. split; reflexivity.
  - rewrite (Hbefore 0%nat c0 ltac:(lia) eq_refl).
    destruct (IH (S i) k c Hops Hk Hc) as [Hout Hvis].
    { intros j c' Hj Hl. apply (Hbefore (S j) c'); [lia|exact Hl]. }
    destruct (psteps ceval AND h r (S i) true l) as [out vis]; simpl in *.
    split; [exact Hout|]. rewrite Hvis. reflexivity.
Qed.

(** Only operators other than [AND]: once [result] is true the walk
    returns. *)
Lemma psteps_or_true l : forall i,
  Forall (fun o => o <> AND) (map fst l) ->
  psteps ceval AND h r i true l = (Ok true, []).
Proof.
  destruct l as [|[o c] l]; intros i Hops; simpl in *; [reflexivity|].
  apply Forall_cons in Hops as [Ho Hops].
  destruct (o =? AND) eqn:E; [apply Z.eqb_eq in E; contradiction|reflexivity].
Qed.

Lemma psteps_or_iff l : forall i result b,
  Forall (fun o => o <> AND) (map fst l) ->
  fst (psteps ceval AND h r i result l) = Ok b ->
  (b = true <-> result = true \/ Exists (holds_true ceval h r) (map snd l)).
Proof.
  induction l as [|[o c] l IH]; intros i result b Hops Hrun; simpl in *.
  - inversion Hrun; subst. rewrite Exists_nil. intuition.
  - apply Forall_cons in Hops as [Ho Hops].
    destruct (o =? AND) eqn:E; [apply Z.eqb_eq in E; contradiction|].
    rewrite Exists_cons. unfold holds_true at 1.
    destruct result.
    + inversion Hrun; subst. intuition.
    + destruct (value_of ceval c h r) as [b0|f]; [|discriminate].
      specialize (IH (S i) b0 b Hops).
      destruct (psteps ceval AND h r (S i) b0 l) as [out vis]; simpl in *.
      rewrite (IH Hrun).
      split; [intros [->|H2]; auto | intros [H1|[H2|H3]]; [discriminate|left; congruence|auto]].
Qed.

Lemma psteps_or_first_true l : forall i k c,
  Forall (fun o => o <> AND) (map fst l) ->
  map snd l !! k = Some c ->
  holds_true ceval h r c ->
  (forall j c', (j < k)%nat -> map snd l !! j = Some c' ->
                value_of ceval c' h r = Ok false) ->
  fst (psteps ceval AND h r i false l) = Ok true
  /\ map fst (snd (psteps ceval AND h r i false l)) = seq i (S k).
Proof.
  induction l as [|[o c0] l IH]; intros i k c Hops Hk Hc Hbefore;
    simpl in *; [discriminate|].
  apply Forall_cons in Hops as [Ho Hops].
  destruct (o =? AND) eqn:E; [apply Z.eqb_eq in E; contradiction|].
  destruct k as [|k]; simpl in Hk.
  - inversion Hk; subst c0. unfold holds_true in Hc. rewrite Hc.
    rewrite (psteps_or_true l (S i) Hops). simpl. split; reflexivity.
  - rewrite (Hbefore 0%nat c0 ltac:(lia) eq_refl).
    destruct (IH (S i) k c Hops Hk Hc) as [Hout Hvis].
    { intros j c' Hj Hl. apply (Hbefore (S j) c'); [lia|exact Hl]. }
    destruct (psteps ceval AND h r (S i) false l) as [out vis]; simpl in *.
    split; [exact Hout|]. rewrite Hvis. reflexivity.
Qed.

End OneOperator.

(** ** Lists of pairs *)

Lemma map_fst_zip {A B} (l : list A) : forall k : list B,
  length l = length k -> map fst (zip l k) = l.
Proof.
  induction l as [|x l IH]; intros [|y k] Hlen; simpl in *; try congruence.
  f_equal. apply IH. lia.
Qed.

Lemma map_snd_zip {A B} (l : list A) : forall k : list B,
  length l = length k -> map snd (zip l k) = k.
Proof.
  induction l as [|x l IH]; intros [|y k] Hlen; simpl in *; try congruence.
  f_equal. apply IH. lia.
Qed.

Lemma StronglySorted_sublist {A} (R : A -> A -> Prop) (l1 l2 : list A) :
  l1 `sublist_of` l2 -> StronglySorted R l2 -> StronglySorted R l1.
Proof.
  induction 1 as [|x l1 l2 Hsub IH|x l1 l2 Hsub IH]; intros Hsorted.
  - constructor.
  - apply StronglySorted_inv in Hsorted as [Hs Hall]. constructor; [auto|].
    apply Forall_forall. intros y Hy.
    apply (proj1 (Forall_forall _ _) Hall).
    eapply elem_of_sublist; eassumption.
  - apply StronglySorted_inv in Hsorted as [Hs Hall]. auto.
Qed.

Lemma StronglySorted_seq n : forall i, StronglySorted lt (seq i n).
Proof.
  induction n as [|n IH]; intros i; simpl; constructor; [apply IH|].
  apply Forall_forall. intros j Hj. apply elem_of_seq in Hj. lia.
Qed.

Lemma sublist_map {A B} (f : A -> B) (l1 l2 : list A) :
  l1 `sublist_of` l2 -> map f l1 `sublist_of` map f l2.
Proof. induction 1; simpl; constructor; assumption. Qed.

(** ** The walk with the store *)

Section WalkStore.
Context {C : Type}.
Variable ceval : C -> M bool.
Variable ccol : C -> string.
Variables AND OR : operator_t.

Hypothesis ceval_spec : forall c s,
  ceval c s =
    (value_of ceval c (header s) (row s),
     with_header (touch_header (ccol c) (header s)) s).
Hypothesis value_of_touch : forall c k h r,
  value_of ceval c (touch_header k h) r = value_of ceval c h r.

Lemma walk_groups c0 ops cs s b s' :
  AND <> OR ->
  length ops = length cs ->
  Forall (fun o => o = AND \/ o = OR) ops ->
  walk ceval AND c0 (zip ops cs) s = (Ok b, s') ->
  (b = true <->
   Exists (Forall (holds_true ceval (header s) (row s)))
          (and_groups OR c0 ops cs)).
Proof using ceval_spec value_of_touch.
  intros Hne Hlen Hops Hrun.
  rewrite (walk_pwalk ceval ccol AND ceval_spec value_of_touch) in Hrun.
  inversion Hrun as [[Hout Hs]]. clear Hs Hrun.
  rewrite and_groups_rest.
  apply (pwalk_groups ceval AND OR); [assumption| |assumption].
  apply Forall_map with (f := fst) (P := fun o => o = AND \/ o = OR).
  rewrite map_fst_zip; assumption.
Qed.

Lemma walk_and_iff c0 ops cs s b s' :
  length ops = length cs ->
  Forall (fun o => o = AND) ops ->
  walk ceval AND c0 (zip ops cs) s = (Ok b, s') ->
  (b = true <-> Forall (holds_true ceval (header s) (row s)) (c0 :: cs)).
Proof using ceval_spec value_of_touch.
  intros Hlen Hops Hrun.
  rewrite (walk_pwalk ceval ccol AND ceval_spec value_of_touch) in Hrun.
  inversion Hrun as [[Hout Hs]]. clear Hs Hrun. unfold pwalk in Hout.
  rewrite Forall_cons. unfold holds_true at 1.
  destruct (value_of ceval c0 (header s) (row s)) as [b0|f]; [|discriminate].
  pose proof (psteps_and_iff ceval AND (header s) (row s) (zip ops cs) 1 b0 b)
    as Hl.
  rewrite map_fst_zip, map_snd_zip in Hl by assumption.
  destruct (psteps ceval AND (header s) (row s) 1 b0 (zip ops cs)); simpl in *.
  rewrite (Hl Hops Hout).
  split; (intros [H1 H2]; split; [congruence|exact H2]).
Qed.

Lemma walk_or_iff c0 ops cs s b s' :
  length ops = length cs ->
  Forall (fun o => o <> AND) ops ->
  walk ceval AND c0 (zip ops cs) s = (Ok b, s') ->
  (b = true <-> Exists (holds_true ceval (header s) (row s)) (c0 :: cs)).
Proof using ceval_spec value_of_touch.
  intros Hlen Hops Hrun.
  rewrite (walk_pwalk ceval ccol AND ceval_spec value_of_touch) in Hrun.
  inversion Hrun as [[Hout Hs]]. clear Hs Hrun. unfold pwalk in Hout.
  rewrite Exists_cons. unfold holds_true at 1.
  destruct (value_of ceval c0 (header s) (row s)) as [b0|f]; [|discriminate].
  pose proof (psteps_or_iff ceval AND (header s) (row s) (zip ops cs) 1 b0 b)
    as Hl.
  rewrite map_fst_zip, map_snd_zip in Hl by assumption.
  destruct (psteps ceval AND (header s) (row s) 1 b0 (zip ops cs)); simpl in *.
  rewrite (Hl Hops Hout).
  split; (intros [H1|H2]; [left; congruence|right; exact H2]).
Qed.

Lemma walk_and_first_false c0 ops cs s k c :
  length ops = length cs ->
  Forall (fun o => o = AND) ops ->
  (c0 :: cs) !! k = Some c ->
  value_of ceval c (header s) (row s) = Ok false ->
  (forall j c', (j < k)%nat -> (c0 :: cs) !! j = Some c' ->
                holds_true ceval (header s) (row s) c') ->
  fst (walk ceval AND c0 (zip ops cs) s) = Ok false
  /\ evaluated (snd (walk ceval AND c0 (zip ops cs) s))
     = (evaluated s ++ seq 0 (S k))%list.
Proof using ceval_spec value_of_touch.
  intros Hlen Hops Hk Hc Hbefore.
  rewrite (walk_pwalk ceval ccol AND ceval_spec value_of_touch).
  unfold pwalk. simpl.
  destruct k as [|k]; simpl in Hk.
  - inversion Hk; subst c0. rewrite Hc.
    rewrite psteps_and_false by (rewrite map_fst_zip; assumption).
    simpl. split; reflexivity.
  - rewrite (Hbefore 0%nat c0 ltac:(lia) eq_refl).
    destruct (psteps_and_first_false ceval AND (header s) (row s)
                (zip ops cs) 1 k c) as [Hout Hvis].
    + rewrite map_fst_zip; assumption.
    + rewrite map_snd_zip; assumption.
    + assumption.
    + intros j c' Hj Hl. rewrite map_snd_zip in Hl by assumption.
      apply (Hbefore (S j) c'); [lia|exact Hl].
    + destruct (psteps ceval AND (header s) (row s) 1 true (zip ops cs));
        simpl in *.
      split; [exact Hout|]. rewrite Hvis. reflexivity.
Qed.

Lemma walk_or_first_true c0 ops cs s k c :
  length ops = length cs ->
  Forall (fun o => o <> AND) ops ->
  (c0 :: cs) !! k = Some c ->
  holds_true ceval (header s) (row s) c ->
  (forall j c', (j < k)%nat -> (c0 :: cs) !! j = Some c' ->
                value_of ceval c' (header s) (row s) = Ok false) ->
  fst (walk ceval AND c0 (zip ops cs) s) = Ok true
  /\ evaluated (snd (walk ceval AND c0 (zip ops cs) s))
     = (evaluated s ++ seq 0 (S k))%list.
Proof using ceval_spec value_of_touch.
  intros Hlen Hops Hk Hc Hbefore.
  rewrite (walk_pwalk ceval ccol AND ceval_spec value_of_touch).
  unfold pwalk. simpl.
  destruct k as [|k]; simpl in Hk.
  - inversion Hk; subst c0. unfold holds_true in Hc. rewrite Hc.
    rewrite psteps_or_true by (rewrite map_fst_zip; assumption).
    simpl. split; reflexivity.
  - rewrite (Hbefore 0%nat c0 ltac:(lia) eq_refl).
    destruct (psteps_or_first_true ceval AND (header s) (row s)
                (zip ops cs) 1 k c) as [Hout Hvis].
    + rewrite map_fst_zip; assumption.
    + rewrite map_snd_zip; assumption.
    + assumption.
    + intros j c' Hj Hl. rewrite map_snd_zip in Hl by assumption.
      apply (Hbefore (S j) c'); [lia|exact Hl].
    + destruct (psteps ceval AND (header s) (row s) 1 false (zip ops cs));
        simpl in *.
      split; [exact Hout|]. rewrite Hvis. reflexivity.
Qed.

End WalkStore.

Section WalkFrame.
Context {C : Type}.
Variable ceval : C -> M bool.
Variable ccol : C -> string.
Variable AND : operator_t.

Hypothesis ceval_spec : forall c s,
  ceval c s =
    (value_of ceval c (header s) (row s),
     with_header (touch_header (ccol c) (header s)) s).
Hypothesis value_of_touch : forall c k h r,
  value_of ceval c (touch_header k h) r = value_of ceval c h r.

Lemma touch_all_subseteq (vis : list (nat * C)) : forall h : header_t,
  h ⊆ touch_all ccol vis h.
Proof.
  induction vis as [|ic vis IH]; intros h; simpl; [reflexivity|].
  etransitivity; [apply (touch_header_subseteq (ccol (snd ic)))|apply IH].
Qed.

Lemma touch_all_present (vis : list (nat * C)) : forall h : header_t,
  (forall ic, ic ∈ vis -> is_Some (h !! ccol (snd ic))) ->
  touch_all ccol vis h = h.
Proof.
  induction vis as [|ic vis IH]; intros h Hall; simpl; [reflexivity|].
  rewrite touch_header_present by (apply Hall; left).
  apply IH. intros ic' Hin. apply Hall. right. exact Hin.
Qed.

Lemma walk_row c0 l s : row (snd (walk ceval AND c0 l s)) = row s.
Proof using ceval_spec value_of_touch.
  rewrite (walk_pwalk ceval ccol AND ceval_spec value_of_touch). reflexivity.
Qed.

Lemma walk_header_grows c0 l s :
  header s ⊆ header (snd (walk ceval AND c0 l s)).
Proof using ceval_spec value_of_touch.
  rewrite (walk_pwalk ceval ccol AND ceval_spec value_of_touch). simpl.
  apply touch_all_subseteq.
Qed.

Lemma walk_header_same c0 ops cs s :
  length ops = length cs ->
  (forall c, c ∈ c0 :: cs -> is_Some (header s !! ccol c)) ->
  header (snd (walk ceval AND c0 (zip ops cs) s)) = header s.
Proof using ceval_spec value_of_touch.
  intros Hlen Hall.
  rewrite (walk_pwalk ceval ccol AND ceval_spec value_of_touch). simpl.
  apply touch_all_present. intros [i c] Hin. simpl. apply Hall.
  pose proof (pwalk_visits ceval AND (header s) (row s) c0 (zip ops cs)) as Hsub.
  rewrite map_snd_zip in Hsub by assumption.
  apply (elem_of_zip_r i c (seq 0 (S (length (zip ops cs))))).
  eapply elem_of_sublist; eassumption.
Qed.

Lemma walk_visits c0 ops cs s :
  length ops = length cs ->
  exists idx,
    evaluated (snd (walk ceval AND c0 (zip ops cs) s))
      = (evaluated s ++ idx)%list
    /\ idx `sublist_of` seq 0 (S (length cs)).
Proof using ceval_spec value_of_touch.
  intros Hlen.
  rewrite (walk_pwalk ceval ccol AND ceval_spec value_of_touch). simpl.
  eexists. split; [reflexivity|].
  pose proof (pwalk_visits ceval AND (header s) (row s) c0 (zip ops cs)) as Hsub.
  apply (sublist_map fst) in Hsub.
  rewrite map_snd_zip in Hsub by assumption.
  assert (Hl : length (zip ops cs) = length cs).
  { rewrite <- (map_snd_zip ops cs Hlen) at 2. rewrite length_map. reflexivity. }
  rewrite Hl in Hsub.
  rewrite (map_fst_zip (seq 0 (S (length cs))) (c0 :: cs)) in Hsub;
    [exact Hsub|].
  rewrite length_seq. reflexivity.
Qed.

Lemma walk_fault c0 ops cs s f :
  length ops = length cs ->
  fst (walk ceval AND c0 (zip ops cs) s) = Fault f ->
  exists c, c ∈ c0 :: cs /\ value_of ceval c (header s) (row s) = Fault f.
Proof using ceval_spec value_of_touch.
  intros Hlen.
  rewrite (walk_pwalk ceval ccol AND ceval_spec value_of_touch). simpl.
  intros Hf. apply pwalk_fault in Hf.
  rewrite map_snd_zip in Hf by assumption. exact Hf.
Qed.

End WalkFrame.


Lemma V1_eval_is_walk w :
  V1_well_formed w ->
  exists c0 cs,
    V1.conditions w = c0 :: cs
    /\ length (V1.operators w) = length cs
    /\ forall s, V1.Where_eval w s
                 = walk V1.base_eval V1.AND c0 (zip (V1.operators w) cs) s.
Proof.
  unfold V1_well_formed. intros Hwf.
  destruct (V1.conditions w) as [|c0 cs] eqn:Hc; [discriminate|].
  exists c0, cs. split; [reflexivity|]. split; [simpl in Hwf; lia|].
  intros s. rewrite (V1_eval_walk w c0 s); [|rewrite Hc; exact Hwf|rewrite Hc; reflexivity].
  unfold V1_pairs. rewrite Hc. reflexivity.
Qed.

Lemma V2_eval_is_walk w :
  V2_well_formed w ->
  exists c0 cs,
    V2.conditions w = c0 :: cs
    /\ length (V2.operators w) = length cs
    /\ forall s, V2.Where_eval w s
                 = walk V2.base_eval V2.Operator.AND c0 (zip (V2.operators w) cs) s.
Proof.
  unfold V2_well_formed. intros Hwf.
  destruct (V2.conditions w) as [|c0 cs] eqn:Hc; [discriminate|].
  exists c0, cs. split; [reflexivity|]. split; [simpl in Hwf; lia|].
  intros s. rewrite (V2_eval_walk w c0 s); [|rewrite Hc; exact Hwf|rewrite Hc; reflexivity].
  unfold V2_pairs. rewrite Hc. reflexivity.
Qed.

(** C1.  For a predicate of N >= 1 conditions and N - 1 operators, each
    [AND] or [OR], whenever [Where::eval] returns a boolean (no evaluated
    condition failed), that boolean is true exactly when some AND-group has
    all its conditions true.  Holds for the recursive [eval] of [where.cpp]
    and for the iterative one. *)
Theorem where_eval_and_groups :
  (forall (w : V1.Where) (s : store) (b : bool),
     V1_well_formed w ->
     Forall (fun o => o = V1.AND \/ o = V1.OR) (V1.operators w) ->
     fst (V1.Where_eval w s) = Ok b ->
     (b = true <->
      Exists (Forall (fun c => V1_holds c (header s) (row s) = Ok true))
             (V1_groups w)))
  /\
  (forall (w : V2.Where) (s : store) (b : bool),
     V2_well_formed w ->
     Forall (fun o => o = V2.Operator.AND \/ o = V2.Operator.OR) (V2.operators w) ->
     fst (V2.Where_eval w s) = Ok b ->
     (b = true <->
      Exists (Forall (fun c => V2_holds c (header s) (row s) = Ok true))
             (V2_groups w))).
Proof.
  split; intros w s b Hwf Hops Hrun.
  - destruct (V1_eval_is_walk w Hwf) as (c0 & cs & Hc & Hlen & Hwalk).
    unfold V1_groups. rewrite Hc. rewrite Hwalk in Hrun.
    destruct (walk V1.base_eval V1.AND c0 (zip (V1.operators w) cs) s)
      as [out s'] eqn:E. simpl in Hrun. subst out.
    apply (walk_groups V1.base_eval V1.base_column V1.AND V1.OR
             V1_base_eval_spec V1_value_of_touch c0 _ cs s b s');
      [discriminate|assumption|assumption|exact E].
  - destruct (V2_eval_is_walk w Hwf) as (c0 & cs & Hc & Hlen & Hwalk).
    unfold V2_groups. rewrite Hc. rewrite Hwalk in Hrun.
    destruct (walk V2.base_eval V2.Operator.AND c0 (zip (V2.operators w) cs) s)
      as [out s'] eqn:E. simpl in Hrun. subst out.
    apply (walk_groups V2.base_eval V2.base_column V2.Operator.AND V2.Operator.OR
             V2_base_eval_spec V2_value_of_touch c0 _ cs s b s');
      [discriminate|assumption|assumption|exact E].
Qed.

(** C6.  With only [AND] operators, a returned boolean is true exactly when
    every condition is true; and when the condition at position [k] is the
    first false one, [eval] returns false having evaluated the conditions
    0..k and none after. *)
Theorem only_and_semantics :
  (forall (w : V1.Where) (s : store),
     V1_well_formed w ->
     Forall (fun o => o = V1.AND) (V1.operators w) ->
     (forall b, fst (V1.Where_eval w s) = Ok b ->
        (b = true <->
         Forall (fun c => V1_holds c (header s) (row s) = Ok true)
                (V1.conditions w)))
     /\
     (forall k c,
        V1.conditions w !! k = Some c ->
        V1_holds c (header s) (row s) = Ok false ->
        (forall j c', (j < k)%nat -> V1.conditions w !! j = Some c' ->
                      V1_holds c' (header s) (row s) = Ok true) ->
        fst (V1.Where_eval w s) = Ok false
        /\ evaluated (snd (V1.Where_eval w s))
           = (evaluated s ++ seq 0 (S k))%list))
  /\
  (forall (w : V2.Where) (s : store),
     V2_well_formed w ->
     Forall (fun o => o = V2.Operator.AND) (V2.operators w) ->
     (forall b, fst (V2.Where_eval w s) = Ok b ->
        (b = true <->
         Forall (fun c => V2_holds c (header s) (row s) = Ok true)
                (V2.conditions w)))
     /\
     (forall k c,
        V2.conditions w !! k = Some c ->
        V2_holds c (header s) (row s) = Ok false ->
        (forall j c', (j < k)%nat -> V2.conditions w !! j = Some c' ->
                      V2_holds c' (header s) (row s) = Ok true) ->
        fst (V2.Where_eval w s) = Ok false
        /\ evaluated (snd (V2.Where_eval w s))
           = (evaluated s ++ seq 0 (S k))%list)).
Proof.
  split; intros w s Hwf Hops.
  - destruct (V1_eval_is_walk w Hwf) as (c0 & cs & Hc & Hlen & Hwalk).
    rewrite Hc, Hwalk. split.
    + intros b Hrun.
      destruct (walk V1.base_eval V1.AND c0 (zip (V1.operators w) cs) s)
        as [out s'] eqn:E. simpl in Hrun. subst out.
      exact (walk_and_iff V1.base_eval V1.base_column V1.AND
               V1_base_eval_spec V1_value_of_touch c0 _ cs s b s' Hlen Hops E).
    + intros k c.
      exact (walk_and_first_false V1.base_eval V1.base_column V1.AND
               V1_base_eval_spec V1_value_of_touch c0 _ cs s k c Hlen Hops).
  - destruct (V2_eval_is_walk w Hwf) as (c0 & cs & Hc & Hlen & Hwalk).
    rewrite Hc, Hwalk. split.
    + intros b Hrun.
      destruct (walk V2.base_eval V2.Operator.AND c0 (zip (V2.operators w) cs) s)
        as [out s'] eqn:E. simpl in Hrun. subst out.
      exact (walk_and_iff V2.base_eval V2.base_column V2.Operator.AND
               V2_base_eval_spec V2_value_of_touch c0 _ cs s b s' Hlen Hops E).
    + intros k c.
      exact (walk_and_first_false V2.base_eval V2.base_column V2.Operator.AND
               V2_base_eval_spec V2_value_of_touch c0 _ cs s k c Hlen Hops).
Qed.

Lemma sublist_seq_facts (idx : list nat) n :
  idx `sublist_of` seq 0 n ->
  (length idx <= n)%nat
  /\ StronglySorted lt idx
  /\ Forall (fun i => (i < n)%nat) idx.
Proof.
  intros Hsub. split; [|split].
  - apply sublist_length in Hsub. rewrite length_seq in Hsub. exact Hsub.
  - eapply StronglySorted_sublist; [exact Hsub|apply StronglySorted_seq].
  - apply Forall_forall. intros i Hi.
    apply (elem_of_sublist _ _ _ Hi) in Hsub. apply elem_of_seq in Hsub. lia.
Qed.

(** C9.  On a well-formed predicate [eval] returns, and the positions of the
    conditions it evaluated are strictly increasing positions of the
    condition list: no position twice, at most N evaluations. *)
Theorem eval_visits_bounded :
  (forall (w : V1.Where) (s : store),
     V1_well_formed w ->
     exists out s' idx,
       V1.Where_eval w s = (out, s')
       /\ evaluated s' = (evaluated s ++ idx)%list
       /\ (length idx <= length (V1.conditions w))%nat
       /\ StronglySorted lt idx
       /\ Forall (fun i => (i < length (V1.conditions w))%nat) idx)
  /\
  (forall (w : V2.Where) (s : store),
     V2_well_formed w ->
     exists out s' idx,
       V2.Where_eval w s = (out, s')
       /\ evaluated s' = (evaluated s ++ idx)%list
       /\ (length idx <= length (V2.conditions w))%nat
       /\ StronglySorted lt idx
       /\ Forall (fun i => (i < length (V2.conditions w))%nat) idx).
Proof.
  split; intros w s Hwf.
  - destruct (V1_eval_is_walk w Hwf) as (c0 & cs & Hc & Hlen & Hwalk).
    destruct (walk_visits V1.base_eval V1.base_column V1.AND
                V1_base_eval_spec V1_value_of_touch c0 _ cs s Hlen)
      as (idx & Hidx & Hsub).
    rewrite <- Hwalk in Hidx. rewrite Hc.
    exists (fst (V1.Where_eval w s)), (snd (V1.Where_eval w s)), idx.
    split; [apply surjective_pairing|]. split; [exact Hidx|].
    apply sublist_seq_facts. exact Hsub.
  - destruct (V2_eval_is_walk w Hwf) as (c0 & cs & Hc & Hlen & Hwalk).
    destruct (walk_visits V2.base_eval V2.base_column V2.Operator.AND
                V2_base_eval_spec V2_value_of_touch c0 _ cs s Hlen)
      as (idx & Hidx & Hsub).
    rewrite <- Hwalk in Hidx. rewrite Hc.
    exists (fst (V2.Where_eval w s)), (snd (V2.Where_eval w s)), idx.
    split; [apply surjective_pairing|]. split; [exact Hidx|].
    apply sublist_seq_facts. exact Hsub.
Qed.

Lemma V1_holds_faults c h r f :
  V1_holds c h r = Fault f -> f <> OutOfBounds vec_conditions.
Proof.
  destruct c as [T CT c]. unfold V1_holds. simpl. rewrite V1_eval_spec. simpl.
  unfold V1_answer. destruct (cell_at _ _); [|congruence].
  destruct (from_cell s); congruence.
Qed.

Lemma V2_holds_faults c h r f :
  V2_holds c h r = Fault f -> f = OutOfBounds vec_row.
Proof.
  destruct c as [T CT c]. unfold V2_holds. simpl. rewrite V2_eval_spec. simpl.
  unfold V2_answer. destruct (cell_at _ _); [|congruence].
  destruct (from_cell s); congruence.
Qed.

(** C5, as the code has it.  No [EmptyPredicate] error exists: with no
    condition [eval] indexes [conditions[0]] past the end.  With N >= 1
    conditions and N - 1 operators every index into [conditions] is in
    range. *)
Theorem conditions_index_in_range :
  (forall (w : V1.Where) (s : store),
     (V1.conditions w = [] ->
      V1.Where_eval w s = (Fault (OutOfBounds vec_conditions), s))
     /\ (V1_well_formed w ->
         fst (V1.Where_eval w s) <> Fault (OutOfBounds vec_conditions)))
  /\
  (forall (w : V2.Where) (s : store),
     (V2.conditions w = [] ->
      V2.Where_eval w s = (Fault (OutOfBounds vec_conditions), s))
     /\ (V2_well_formed w ->
         fst (V2.Where_eval w s) <> Fault (OutOfBounds vec_conditions))).
Proof.
  split; intros w s; split.
  - intros Hnil. unfold V1.Where_eval. rewrite V1_eval_at_unfold.
    unfold V1.call. rewrite Hnil. reflexivity.
  - intros Hwf Hf.
    destruct (V1_eval_is_walk w Hwf) as (c0 & cs & Hc & Hlen & Hwalk).
    rewrite Hwalk in Hf.
    apply (walk_fault V1.base_eval V1.base_column V1.AND
             V1_base_eval_spec V1_value_of_touch c0 _ cs s _ Hlen) in Hf.
    destruct Hf as (c & _ & Hc').
    exact (V1_holds_faults c _ _ _ Hc' eq_refl).
  - intros Hnil. unfold V2.Where_eval, bind, V2.call. rewrite Hnil. reflexivity.
  - intros Hwf Hf.
    destruct (V2_eval_is_walk w Hwf) as (c0 & cs & Hc & Hlen & Hwalk).
    rewrite Hwalk in Hf.
    apply (walk_fault V2.base_eval V2.base_column V2.Operator.AND
             V2_base_eval_spec V2_value_of_touch c0 _ cs s _ Hlen) in Hf.
    destruct Hf as (c & _ & Hc').
    apply V2_holds_faults in Hc'. discriminate.
Qed.

Lemma touch_all_lookup {C : Type} (ccol : C -> string) (vis : list (nat * C)) :
  forall (h : header_t) k v,
  touch_all ccol vis h !! k = Some v ->
  h !! k = Some v \/ (v = 0 /\ exists ic, ic ∈ vis /\ ccol (snd ic) = k).
Proof.
  induction vis as [|ic vis IH]; intros h k v Hk; simpl in Hk; [left; exact Hk|].
  destruct (IH _ _ _ Hk) as [Hh|(-> & ic' & Hin & Hcol)].
  - unfold touch_header in Hh.
    destruct (h !! ccol (snd ic)) eqn:Hc; [left; exact Hh|].
    destruct (decide (ccol (snd ic) = k)) as [<-|Hne].
    + rewrite lookup_insert_eq in Hh. inversion Hh; subst.
      right. split; [reflexivity|]. exists ic. split; [left|reflexivity].
    + rewrite lookup_insert_ne in Hh by assumption. left; exact Hh.
  - right. split; [reflexivity|]. exists ic'. split; [right; exact Hin|exact Hcol].
Qed.

Section WalkHeader.
Context {C : Type}.
Variable ceval : C -> M bool.
Variable ccol : C -> string.
Variable AND : operator_t.

Hypothesis ceval_spec : forall c s,
  ceval c s =
    (value_of ceval c (header s) (row s),
     with_header (touch_header (ccol c) (header s)) s).
Hypothesis value_of_touch : forall c k h r,
  value_of ceval c (touch_header k h) r = value_of ceval c h r.

Lemma walk_header_new c0 ops cs s k v :
  length ops = length cs ->
  header (snd (walk ceval AND c0 (zip ops cs) s)) !! k = Some v ->
  header s !! k = Some v
  \/ (v = 0 /\ exists c, c ∈ c0 :: cs /\ ccol c = k).
Proof using ceval_spec value_of_touch.
  intros Hlen.
  rewrite (walk_pwalk ceval ccol AND ceval_spec value_of_touch). simpl.
  intros Hk. apply touch_all_lookup in Hk.
  destruct Hk as [Hk|(-> & [i c] & Hin & Hcol)]; [left; exact Hk|].
  right. split; [reflexivity|]. exists c. split; [|exact Hcol].
  pose proof (pwalk_visits ceval AND (header s) (row s) c0 (zip ops cs)) as Hsub.
  rewrite map_snd_zip in Hsub by assumption.
  apply (elem_of_zip_r i c (seq 0 (S (length (zip ops cs))))).
  eapply elem_of_sublist; eassumption.
Qed.

End WalkHeader.

(** C4, as the code has it.  On a well-formed predicate [eval] leaves the row
    as it was and keeps every entry of the header; the header can gain
    entries: each new one maps the column of one of the conditions, absent
    before the call, to 0.  When every condition's column is in the header,
    the header is unchanged. *)
Theorem eval_frame :
  (forall (w : V1.Where) (s : store),
     V1_well_formed w ->
     row (snd (V1.Where_eval w s)) = row s
     /\ header s ⊆ header (snd (V1.Where_eval w s))
     /\ (forall k v,
           header (snd (V1.Where_eval w s)) !! k = Some v ->
           header s !! k = Some v
           \/ (v = 0 /\ exists c, c ∈ V1.conditions w /\ V1.base_column c = k))
     /\ ((forall c, c ∈ V1.conditions w -> is_Some (header s !! V1.base_column c)) ->
         header (snd (V1.Where_eval w s)) = header s))
  /\
  (forall (w : V2.Where) (s : store),
     V2_well_formed w ->
     row (snd (V2.Where_eval w s)) = row s
     /\ header s ⊆ header (snd (V2.Where_eval w s))
     /\ (forall k v,
           header (snd (V2.Where_eval w s)) !! k = Some v ->
           header s !! k = Some v
           \/ (v = 0 /\ exists c, c ∈ V2.conditions w /\ V2.base_column c = k))
     /\ ((forall c, c ∈ V2.conditions w -> is_Some (header s !! V2.base_column c)) ->
         header (snd (V2.Where_eval w s)) = header s)).
Proof.
  split; intros w s Hwf.
  - destruct (V1_eval_is_walk w Hwf) as (c0 & cs & Hc & Hlen & Hwalk).
    rewrite Hc, Hwalk. repeat split.
    + apply (walk_row V1.base_eval V1.base_column V1.AND
               V1_base_eval_spec V1_value_of_touch).
    + apply (walk_header_grows V1.base_eval V1.base_column V1.AND
               V1_base_eval_spec V1_value_of_touch).
    + intros k v.
      apply (walk_header_new V1.base_eval V1.base_column V1.AND
               V1_base_eval_spec V1_value_of_touch c0 _ cs s k v Hlen).
    + apply (walk_header_same V1.base_eval V1.base_column V1.AND
               V1_base_eval_spec V1_value_of_touch c0 _ cs s Hlen).
  - destruct (V2_eval_is_walk w Hwf) as (c0 & cs & Hc & Hlen & Hwalk).
    rewrite Hc, Hwalk. repeat split.
    + apply (walk_row V2.base_eval V2.base_column V2.Operator.AND
               V2_base_eval_spec V2_value_of_touch).
    + apply (walk_header_grows V2.base_eval V2.base_column V2.Operator.AND
               V2_base_eval_spec V2_value_of_touch).
    + intros k v.
      apply (walk_header_new V2.base_eval V2.base_column V2.Operator.AND
               V2_base_eval_spec V2_value_of_touch c0 _ cs s k v Hlen).
    + apply (walk_header_same V2.base_eval V2.base_column V2.Operator.AND
               V2_base_eval_spec V2_value_of_touch c0 _ cs s Hlen).
Qed.

(** C2, as the code has it.  In the reworked program a condition with an
    integer or floating-point literal evaluates to false, and raises
    nothing, whenever the conversion of the cell throws [invalid_argument]
    or [out_of_range]. *)
Theorem conversion_failure_is_false :
  (forall (c : V2.Condition Z) (s : store) (cell : string) (e : exn),
     cell_at (row s) (column_index (V2.column c) (header s)) = Some cell ->
     stoi cell = Raised e ->
     fst (V2.eval c s) = Ok false)
  /\
  (forall (stod_float : string -> conv SpecFloat.spec_float)
          (c : V2.Condition SpecFloat.spec_float) (s : store)
          (cell : string) (e : exn),
     cell_at (row s) (column_index (V2.column c) (header s)) = Some cell ->
     stod_float cell = Raised e ->
     fst (@V2.eval _ (float_cell stod_float) c s) = Ok false).
Proof.
  split.
  - intros c s cell e Hcell Hconv. rewrite V2_eval_spec. simpl.
    unfold V2_answer. rewrite Hcell. simpl. rewrite Hconv. reflexivity.
  - intros stod_float c s cell e Hcell Hconv. rewrite V2_eval_spec. simpl.
    unfold V2_answer. rewrite Hcell. simpl. rewrite Hconv. reflexivity.
Qed.

(** C3, as the code has it.  A condition whose column is absent from the
    header reports nothing: the lookup inserts the column with index 0 and
    the condition is evaluated on the first cell of the row. *)
Theorem absent_column_reads_first_cell :
  (forall (T : Type) (CT : CellType T) (c : V1.Condition T) (s : store),
     header s !! V1.column c = None ->
     V1.eval c s =
       (match row s !! 0%nat with
        | None => Fault (OutOfBounds vec_row)
        | Some cell =>
            match from_cell cell with
            | Converted val => Ok (V1.compare (V1.op c) val (V1.value c))
            | Raised e => Fault (Throw e)
            end
        end,
        with_header (<[V1.column c := 0]> (header s)) s))
  /\
  (forall (T : Type) (CT : CellType T) (c : V2.Condition T) (s : store),
     header s !! V2.column c = None ->
     V2.eval c s =
       (match row s !! 0%nat with
        | None => Fault (OutOfBounds vec_row)
        | Some cell =>
            match from_cell cell with
            | Converted val => Ok (V2.compare (V2.op c) val (V2.value c))
            | Raised _ => Ok false
            end
        end,
        with_header (<[V2.column c := 0]> (header s)) s)).
Proof.
  split; intros T CT c s Hcol.
  - rewrite V1_eval_spec. unfold V1_answer, column_index, touch_header.
    rewrite Hcol. reflexivity.
  - rewrite V2_eval_spec. unfold V2_answer, column_index, touch_header.
    rewrite Hcol. reflexivity.
Qed.

Lemma with_header_same s : with_header (header s) s = s.
Proof. destruct s; reflexivity. Qed.

(** C10.  A condition whose operator is none of the six comparison
    operators evaluates to false when the column is in the header, the cell
    is in the row and the conversion succeeds; the store is left as it
    was. *)
Theorem unknown_operator_is_false :
  (forall (T : Type) (CT : CellType T) (c : V1.Condition T) (s : store)
          (i : Z) (cell : string) (val : T),
     ~ In (V1.op c) [V1.EQ; V1.NE; V1.LT; V1.LE; V1.GT; V1.GE] ->
     header s !! V1.column c = Some i ->
     cell_at (row s) i = Some cell ->
     from_cell cell = Converted val ->
     V1.eval c s = (Ok false, s))
  /\
  (forall (T : Type) (CT : CellType T) (c : V2.Condition T) (s : store)
          (i : Z) (cell : string) (val : T),
     ~ In (V2.op c) [V2.Operator.EQ; V2.Operator.NE; V2.Operator.LT;
                     V2.Operator.LE; V2.Operator.GT; V2.Operator.GE] ->
     header s !! V2.column c = Some i ->
     cell_at (row s) i = Some cell ->
     from_cell cell = Converted val ->
     V2.eval c s = (Ok false, s)).
Proof.
  split; intros T CT c s i cell val Hop Hcol Hcell Hconv.
  - rewrite V1_eval_spec. unfold V1_answer, column_index, touch_header.
    rewrite Hcol. simpl. rewrite Hcell, Hconv, with_header_same.
    unfold V1.compare.
    repeat match goal with
    | |- context [?a =? ?b] =>
        destruct (Z.eqb_spec a b) as [E|E];
        [exfalso; apply Hop; rewrite E; simpl; tauto|clear E]
    end.
    reflexivity.
  - rewrite V2_eval_spec. unfold V2_answer, column_index, touch_header.
    rewrite Hcol. simpl. rewrite Hcell, Hconv, with_header_same.
    unfold V2.compare.
    repeat match goal with
    | |- context [?a =? ?b] =>
        destruct (Z.eqb_spec a b) as [E|E];
        [exfalso; apply Hop; rewrite E; simpl; tauto|clear E]
    end.
    reflexivity.
Qed.

(** C8.  [Operator::toString] gives the six comparison operators their
    tokens; [AND] (7) is given the token of the eighth slot, and [OR] (8)
    indexes the eight-slot array past its end. *)
Theorem toString_logical_shifted :
  V2.Operator.toString V2.Operator.EQ = Ok "="
  /\ V2.Operator.toString V2.Operator.NE = Ok "!="
  /\ V2.Operator.toString V2.Operator.LT = Ok "<"
  /\ V2.Operator.toString V2.Operator.LE = Ok "<="
  /\ V2.Operator.toString V2.Operator.GT = Ok ">"
  /\ V2.Operator.toString V2.Operator.GE = Ok ">="
  /\ V2.Operator.toString V2.Operator.AND = Ok "OR"
  /\ V2.Operator.toString V2.Operator.OR = Fault (OutOfBounds arr_ops).
Proof. repeat split; reflexivity. Qed.


Example v2_mixed_built :
  v2_mixed =
  V2.mkWhere
    [V2.AnyCondition (V2.mkCondition "name" V2.Operator.NE "Bill Gates");
     V2.AnyCondition (V2.mkCondition "age" V2.Operator.GT 60);
     V2.AnyCondition (V2.mkCondition "gender" V2.Operator.EQ "female")]
    [V2.Operator.AND; V2.Operator.OR].
Proof. reflexivity. Qed.

Example v2_mixed_groups :
  V2_groups v2_mixed =
  [[V2.AnyCondition (V2.mkCondition "name" V2.Operator.NE "Bill Gates");
    V2.AnyCondition (V2.mkCondition "age" V2.Operator.GT 60)];
   [V2.AnyCondition (V2.mkCondition "gender" V2.Operator.EQ "female")]].
Proof. reflexivity. Qed.

Example and_groups_four :
  and_groups 8 "A" [7; 8; 7] ["B"; "C"; "D"] = [["A"; "B"]; ["C"; "D"]].
Proof. reflexivity. Qed.

Example v2_mixed_jenny :
  fst (V2.Where_eval v2_mixed on_jenny) = Ok true
  /\ evaluated (snd (V2.Where_eval v2_mixed on_jenny)) = [0; 1; 2]%nat.
Proof. split; vm_compute; reflexivity. Qed.

Example v1_mixed_bill :
  fst (V1.Where_eval v1_mixed on_bill) = Ok false
  /\ evaluated (snd (V1.Where_eval v1_mixed on_bill)) = [0; 2]%nat.
Proof. split; vm_compute; reflexivity. Qed.

(** In [where.cpp] the exception of a failed conversion leaves [eval]. *)
Example v1_conversion_failure_throws :
  fst (V1.eval v1_score_int on_dirty) = Fault (Throw invalid_argument).
Proof. vm_compute. reflexivity. Qed.

Lemma where_eval_and_groups_witness :
  (true = true <->
   Exists (Forall (fun c => V1_holds c demo_header row_jenny = Ok true))
          (V1_groups v1_mixed))
  /\
  (true = true <->
   Exists (Forall (fun c => V2_holds c demo_header row_jenny = Ok true))
          (V2_groups v2_mixed)).
Proof.
  split.
  - apply (proj1 where_eval_and_groups v1_mixed on_jenny true).
    + reflexivity.
    + repeat (constructor; [(left; reflexivity) || (right; reflexivity)|]).
      constructor.
    + vm_compute. reflexivity.
  - apply (proj2 where_eval_and_groups v2_mixed on_jenny true).
    + reflexivity.
    + repeat (constructor; [(left; reflexivity) || (right; reflexivity)|]).
      constructor.
    + vm_compute. reflexivity.
Defined.

Lemma only_and_semantics_witness :
  (fst (V1.Where_eval v1_all_and on_jenny) = Ok false
   /\ evaluated (snd (V1.Where_eval v1_all_and on_jenny)) = ([] ++ seq 0 2)%list)
  /\
  (fst (V2.Where_eval v2_all_and on_jenny) = Ok false
   /\ evaluated (snd (V2.Where_eval v2_all_and on_jenny)) = ([] ++ seq 0 2)%list).
Proof.
  split.
  - destruct (proj1 only_and_semantics v1_all_and on_jenny) as [_ Hfirst].
    + reflexivity.
    + repeat constructor.
    + apply (Hfirst 1%nat (V1.AnyCondition (V1.mkCondition "age" V1.GT 60))).
      * reflexivity.
      * vm_compute. reflexivity.
      * intros j c' Hj Hl. destruct j as [|j]; [|lia].
        injection Hl as <-. vm_compute. reflexivity.
  - destruct (proj2 only_and_semantics v2_all_and on_jenny) as [_ Hfirst].
    + reflexivity.
    + repeat constructor.
    + apply (Hfirst 1%nat (V2.AnyCondition (V2.mkCondition "age" V2.Operator.GT 60))).
      * reflexivity.
      * vm_compute. reflexivity.
      * intros j c' Hj Hl. destruct j as [|j]; [|lia].
        injection Hl as <-. vm_compute. reflexivity.
Defined.

Lemma eval_visits_bounded_witness :
  (exists out s' idx,
     V1.Where_eval v1_mixed on_bill = (out, s')
     /\ evaluated s' = (evaluated on_bill ++ idx)%list
     /\ (length idx <= length (V1.conditions v1_mixed))%nat
     /\ StronglySorted lt idx
     /\ Forall (fun i => (i < length (V1.conditions v1_mixed))%nat) idx)
  /\
  (exists out s' idx,
     V2.Where_eval v2_mixed on_bill = (out, s')
     /\ evaluated s' = (evaluated on_bill ++ idx)%list
     /\ (length idx <= length (V2.conditions v2_mixed))%nat
     /\ StronglySorted lt idx
     /\ Forall (fun i => (i < length (V2.conditions v2_mixed))%nat) idx).
Proof.
  split.
  - apply (proj1 eval_visits_bounded v1_mixed on_bill). reflexivity.
  - apply (proj2 eval_visits_bounded v2_mixed on_bill). reflexivity.
Defined.

(** C5 as stated fails: an empty predicate is evaluated by reading
    [conditions[0]] out of bounds, and so is [conditions[1]] of a predicate
    with one condition and one operator. *)
Lemma empty_where_reads_out_of_bounds :
  fst (V2.Where_eval (V2.mkWhere [] []) on_jenny)
    = Fault (OutOfBounds vec_conditions)
  /\ fst (V1.Where_eval (V1.mkWhere [] []) on_jenny)
    = Fault (OutOfBounds vec_conditions)
  /\ fst (V2.Where_eval
            (V2.mkWhere [V2.AnyCondition v2_surname] [V2.Operator.AND]) on_jenny)
    = Fault (OutOfBounds vec_conditions).
Proof. repeat split; vm_compute; reflexivity. Qed.

Lemma conditions_index_in_range_witness :
  fst (V1.Where_eval v1_mixed on_jenny) <> Fault (OutOfBounds vec_conditions)
  /\ fst (V2.Where_eval v2_mixed on_jenny) <> Fault (OutOfBounds vec_conditions)
  /\ V1.Where_eval (V1.mkWhere [] []) on_jenny
     = (Fault (OutOfBounds vec_conditions), on_jenny)
  /\ V2.Where_eval (V2.mkWhere [] []) on_jenny
     = (Fault (OutOfBounds vec_conditions), on_jenny).
Proof.
  split; [|split; [|split]].
  - apply (proj2 (proj1 conditions_index_in_range v1_mixed on_jenny)).
    reflexivity.
  - apply (proj2 (proj2 conditions_index_in_range v2_mixed on_jenny)).
    reflexivity.
  - apply (proj1 (proj1 conditions_index_in_range (V1.mkWhere [] []) on_jenny)).
    reflexivity.
  - apply (proj1 (proj2 conditions_index_in_range (V2.mkWhere [] []) on_jenny)).
    reflexivity.
Defined.

(** C4 as stated fails: evaluating a condition on a column the header lacks
    leaves the header with one more entry. *)
Lemma eval_inserts_absent_column :
  header on_jenny !! "surname" = None
  /\ header (snd (V2.Where_eval (V2.mkWhere [V2.AnyCondition v2_surname] []) on_jenny))
       !! "surname" = Some 0
  /\ header (snd (V2.Where_eval (V2.mkWhere [V2.AnyCondition v2_surname] []) on_jenny))
     <> header on_jenny.
Proof.
  split; [vm_compute; reflexivity|]. split; [vm_compute; reflexivity|].
  intros Heq. apply (f_equal (fun m : header_t => m !! "surname")) in Heq.
  vm_compute in Heq. discriminate Heq.
Qed.

Lemma eval_frame_witness :
  (row (snd (V1.Where_eval v1_mixed on_jenny)) = row on_jenny
   /\ header (snd (V1.Where_eval v1_mixed on_jenny)) = header on_jenny)
  /\
  (row (snd (V2.Where_eval v2_mixed on_jenny)) = row on_jenny
   /\ header (snd (V2.Where_eval v2_mixed on_jenny)) = header on_jenny).
Proof.
  split.
  - destruct (proj1 eval_frame v1_mixed on_jenny) as (Hrow & _ & _ & Hsame);
      [reflexivity|].
    split; [exact Hrow|]. apply Hsame. intros c Hin.
    repeat (apply elem_of_cons in Hin as [->|Hin]; [vm_compute; eauto|]).
    apply elem_of_nil in Hin. destruct Hin.
  - destruct (proj2 eval_frame v2_mixed on_jenny) as (Hrow & _ & _ & Hsame);
      [reflexivity|].
    split; [exact Hrow|]. apply Hsame. intros c Hin.
    repeat (apply elem_of_cons in Hin as [->|Hin]; [vm_compute; eauto|]).
    apply elem_of_nil in Hin. destruct Hin.
Defined.

(** C2 as stated fails: a cell that starts with a number and goes on with
    other text does not parse fully, yet it is converted to that number and
    compared; here the condition [age = 12] holds on the cell [12abc]. *)
Lemma partial_parse_compares_prefix :
  cell_at (row on_dirty) (column_index (V2.column v2_age_is_12) (header on_dirty))
    = Some "12abc"
  /\ parses_fully_as_int "12abc" = false
  /\ fst (V2.eval v2_age_is_12 on_dirty) = Ok true.
Proof. repeat split; vm_compute; reflexivity. Qed.

Lemma conversion_failure_is_false_witness :
  fst (V2.eval v2_score_int on_dirty) = Ok false
  /\ fst (@V2.eval _ (float_cell (fun _ => Raised invalid_argument))
            v2_score_float on_dirty) = Ok false.
Proof.
  split.
  - apply (proj1 conversion_failure_is_false v2_score_int on_dirty
             "n/a" invalid_argument); vm_compute; reflexivity.
  - apply (proj2 conversion_failure_is_false (fun _ => Raised invalid_argument)
             v2_score_float on_dirty "n/a" invalid_argument);
      vm_compute; reflexivity.
Defined.

(** C3 as stated fails: on a header without [surname] the condition
    [surname = "Jenny Ho"] reports nothing and holds, compared with the
    [name] cell at index 0. *)
Lemma absent_column_silently_matches :
  header on_jenny !! "surname" = None
  /\ fst (V2.eval v2_surname on_jenny) = Ok true
  /\ fst (V1.eval v1_surname on_jenny) = Ok true.
Proof. repeat split; vm_compute; reflexivity. Qed.

Lemma absent_column_reads_first_cell_witness :
  V1.eval v1_surname on_jenny
    = (Ok true, with_header (<["surname" := 0]> demo_header) on_jenny)
  /\ V2.eval v2_surname on_jenny
    = (Ok true, with_header (<["surname" := 0]> demo_header) on_jenny).
Proof.
  split.
  - exact (proj1 absent_column_reads_first_cell string _ v1_surname on_jenny
             eq_refl).
  - exact (proj2 absent_column_reads_first_cell string _ v2_surname on_jenny
             eq_refl).
Defined.

Lemma unknown_operator_is_false_witness :
  V1.eval v1_age_op9 on_jenny = (Ok false, on_jenny)
  /\ V2.eval v2_age_op9 on_jenny = (Ok false, on_jenny).
Proof.
  split.
  - apply (proj1 unknown_operator_is_false Z _ v1_age_op9 on_jenny 1 "21" 21).
    + intros [H|[H|[H|[H|[H|[H|[]]]]]]]; discriminate H.
    + vm_compute. reflexivity.
    + reflexivity.
    + vm_compute. reflexivity.
  - apply (proj2 unknown_operator_is_false Z _ v2_age_op9 on_jenny 1 "21" 21).
    + intros [H|[H|[H|[H|[H|[H|[]]]]]]]; discriminate H.
    + vm_compute. reflexivity.
    + reflexivity.
    + vm_compute. reflexivity.
Defined.

(** * Further properties of the two programs *)

(** ** The header after an evaluation *)

Section WalkAgain.
Context {C : Type}.
Variable ceval : C -> M bool.
Variable ccol : C -> string.
Variable AND : operator_t.

Hypothesis ceval_spec : forall c s,
  ceval c s =
    (value_of ceval c (header s) (row s),
     with_header (touch_header (ccol c) (header s)) s).
Hypothesis value_of_touch : forall c k h r,
  value_of ceval c (touch_header k h) r = value_of ceval c h r.

Lemma pwalk_touch k h r c0 l :
  pwalk ceval AND (touch_header k h) r c0 l = pwalk ceval AND h r c0 l.
Proof using value_of_touch.
  unfold pwalk. rewrite value_of_touch.
  destruct (value_of ceval c0 h r); [|reflexivity].
  rewrite (psteps_touch ceval AND value_of_touch). reflexivity.
Qed.

Lemma pwalk_touch_all (vis : list (nat * C)) : forall h r c0 l,
  pwalk ceval AND (touch_all ccol vis h) r c0 l = pwalk ceval AND h r c0 l.
Proof using value_of_touch.
  induction vis as [|ic vis IH]; intros h r c0 l; simpl; [reflexivity|].
  rewrite IH. apply pwalk_touch.
Qed.

Lemma touch_all_has (vis : list (nat * C)) : forall (h : header_t) ic,
  ic ∈ vis -> is_Some (touch_all ccol vis h !! ccol (snd ic)).
Proof.
  induction vis as [|ic0 vis IH]; intros h ic Hin; simpl.
  - apply elem_of_nil in Hin. destruct Hin.
  - apply elem_of_cons in Hin as [->|Hin]; [|apply IH; exact Hin].
    assert (Hhere : is_Some (touch_header (ccol (snd ic0)) h !! ccol (snd ic0))).
    { unfold touch_header. destruct (h !! ccol (snd ic0)) eqn:E.
      - rewrite E. eauto.
      - rewrite lookup_insert_eq. eauto. }
    destruct Hhere as [v Hv]. exists v.
    eapply lookup_weaken; [exact Hv|].
    apply (touch_all_subseteq ccol).
Qed.

Lemma touch_all_twice (vis : list (nat * C)) (h : header_t) :
  touch_all ccol vis (touch_all ccol vis h) = touch_all ccol vis h.
Proof.
  apply (touch_all_present ccol). intros ic Hin. apply touch_all_has. exact Hin.
Qed.

Lemma walk_twice c0 l s :
  fst (walk ceval AND c0 l (snd (walk ceval AND c0 l s)))
  = fst (walk ceval AND c0 l s)
  /\ header (snd (walk ceval AND c0 l (snd (walk ceval AND c0 l s))))
     = header (snd (walk ceval AND c0 l s)).
Proof using ceval_spec value_of_touch.
  rewrite !(walk_pwalk ceval ccol AND ceval_spec value_of_touch). simpl.
  rewrite !pwalk_touch_all. split; [reflexivity|]. apply touch_all_twice.
Qed.

End WalkAgain.

(** X1.  Evaluating a well-formed predicate a second time, on the header
    the first evaluation left, returns what the first returned and leaves
    that header as it is: the insertions into the header happen once. *)
Theorem eval_twice :
  (forall (w : V1.Where) (s : store),
     V1_well_formed w ->
     fst (V1.Where_eval w (snd (V1.Where_eval w s))) = fst (V1.Where_eval w s)
     /\ header (snd (V1.Where_eval w (snd (V1.Where_eval w s))))
        = header (snd (V1.Where_eval w s)))
  /\
  (forall (w : V2.Where) (s : store),
     V2_well_formed w ->
     fst (V2.Where_eval w (snd (V2.Where_eval w s))) = fst (V2.Where_eval w s)
     /\ header (snd (V2.Where_eval w (snd (V2.Where_eval w s))))
        = header (snd (V2.Where_eval w s))).
Proof.
  split; intros w s Hwf.
  - destruct (V1_eval_is_walk w Hwf) as (c0 & cs & Hc & Hlen & Hwalk).
    rewrite !Hwalk.
    apply (walk_twice V1.base_eval V1.base_column V1.AND
             V1_base_eval_spec V1_value_of_touch).
  - destruct (V2_eval_is_walk w Hwf) as (c0 & cs & Hc & Hlen & Hwalk).
    rewrite !Hwalk.
    apply (walk_twice V2.base_eval V2.base_column V2.Operator.AND
             V2_base_eval_spec V2_value_of_touch).
Qed.

Lemma eval_twice_witness :
  (fst (V1.Where_eval (V1.mkWhere [V1.AnyCondition v1_surname] [])
          (snd (V1.Where_eval (V1.mkWhere [V1.AnyCondition v1_surname] []) on_jenny)))
   = Ok true)
  /\
  (header (snd (V2.Where_eval (V2.mkWhere [V2.AnyCondition v2_surname] [])
          (snd (V2.Where_eval (V2.mkWhere [V2.AnyCondition v2_surname] []) on_jenny))))
   = <["surname" := 0]> demo_header).
Proof.
  split.
  - rewrite (proj1 (proj1 eval_twice (V1.mkWhere [V1.AnyCondition v1_surname] [])
                      on_jenny eq_refl)).
    vm_compute. reflexivity.
  - rewrite (proj2 (proj2 eval_twice (V2.mkWhere [V2.AnyCondition v2_surname] [])
                      on_jenny eq_refl)).
    reflexivity.
Defined.

Lemma V1_fault_of_condition (w : V1.Where) (s : store) (f : fault) :
  V1_well_formed w ->
  fst (V1.Where_eval w s) = Fault f ->
  exists c, c ∈ V1.conditions w /\ V1_holds c (header s) (row s) = Fault f.
Proof.
  intros Hwf Hf.
  destruct (V1_eval_is_walk w Hwf) as (c0 & cs & Hc & Hlen & Hwalk).
  rewrite Hwalk in Hf. rewrite Hc.
  exact (walk_fault V1.base_eval V1.base_column V1.AND
           V1_base_eval_spec V1_value_of_touch c0 _ cs s f Hlen Hf).
Qed.

Lemma V2_fault_of_condition (w : V2.Where) (s : store) (f : fault) :
  V2_well_formed w ->
  fst (V2.Where_eval w s) = Fault f ->
  exists c, c ∈ V2.conditions w /\ V2_holds c (header s) (row s) = Fault f.
Proof.
  intros Hwf Hf.
  destruct (V2_eval_is_walk w Hwf) as (c0 & cs & Hc & Hlen & Hwalk).
  rewrite Hwalk in Hf. rewrite Hc.
  exact (walk_fault V2.base_eval V2.base_column V2.Operator.AND
           V2_base_eval_spec V2_value_of_touch c0 _ cs s f Hlen Hf).
Qed.

(** X2.  A fault of [Where::eval] on a well-formed predicate is the fault
    of one of its conditions, evaluated on the header and row of the call. *)
Theorem eval_fault_origin :
  (forall (w : V1.Where) (s : store) (f : fault),
     V1_well_formed w ->
     fst (V1.Where_eval w s) = Fault f ->
     exists c, c ∈ V1.conditions w /\ V1_holds c (header s) (row s) = Fault f)
  /\
  (forall (w : V2.Where) (s : store) (f : fault),
     V2_well_formed w ->
     fst (V2.Where_eval w s) = Fault f ->
     exists c, c ∈ V2.conditions w /\ V2_holds c (header s) (row s) = Fault f).
Proof.
  split; [exact V1_fault_of_condition | exact V2_fault_of_condition].
Qed.

Lemma eval_fault_origin_witness :
  (exists c, c ∈ V1.conditions v1_all_and
             /\ V1_holds c (header on_paul) (row on_paul)
                = Fault (Throw invalid_argument))
  /\
  (exists c, c ∈ V2.conditions v2_mixed
             /\ V2_holds c (header (mkStore demo_header [] [])) []
                = Fault (OutOfBounds vec_row)).
Proof.
  split.
  - apply (proj1 eval_fault_origin v1_all_and on_paul
             (Throw invalid_argument)); [reflexivity|].
    vm_compute. reflexivity.
  - apply (proj2 eval_fault_origin v2_mixed (mkStore demo_header [] [])
             (OutOfBounds vec_row)); [reflexivity|].
    vm_compute. reflexivity.
Defined.

(** X3.  The reworked [Where::eval] on a well-formed predicate never lets
    an exception escape: its only fault is a row index out of range, and
    when the index of every condition's column (0 for a column the header
    lacks) is inside the row it returns a boolean. *)
Theorem V2_eval_returns :
  forall (w : V2.Where) (s : store),
    V2_well_formed w ->
    (forall f, fst (V2.Where_eval w s) = Fault f -> f = OutOfBounds vec_row)
    /\ ((forall c, c ∈ V2.conditions w ->
           is_Some (cell_at (row s)
                      (column_index (V2.base_column c) (header s)))) ->
        exists b, fst (V2.Where_eval w s) = Ok b).
Proof.
  intros w s Hwf. split.
  - intros f Hf.
    destruct (V2_fault_of_condition w s f Hwf Hf) as (c & _ & Hc).
    exact (V2_holds_faults c _ _ _ Hc).
  - intros Hcells.
    destruct (fst (V2.Where_eval w s)) as [b|f] eqn:E; [exists b; reflexivity|].
    destruct (V2_fault_of_condition w s f Hwf E) as (c & Hin & Hc).
    destruct (Hcells c Hin) as [cell Hcell].
    destruct c as [T CT c]. unfold V2_holds in Hc. simpl in Hc, Hcell.
    rewrite V2_eval_spec in Hc. simpl in Hc. unfold V2_answer in Hc.
    rewrite Hcell in Hc. destruct (from_cell cell); discriminate Hc.
Qed.

Lemma V2_eval_returns_witness :
  exists b, fst (V2.Where_eval v2_all_and on_dirty) = Ok b.
Proof.
  apply (proj2 (V2_eval_returns v2_all_and on_dirty eq_refl)).
  intros c Hin.
  repeat (apply elem_of_cons in Hin as [->|Hin]; [vm_compute; eauto|]).
  apply elem_of_nil in Hin. destruct Hin.
Defined.

(** ** Two walks that agree *)

Section TwoWalks.
Context {C1 C2 : Type}.
Variable ceval1 : C1 -> M bool.
Variable ceval2 : C2 -> M bool.
Variable AND1 AND2 : operator_t.
Variable f : C1 -> C2.
Variable g : operator_t -> operator_t.
Variable good : fault -> Prop.

Hypothesis g_test : forall o, (g o =? AND2) = (o =? AND1).
Hypothesis ceval_agree : forall c s out s',
  ceval1 c s = (out, s') ->
  (forall f0, out = Fault f0 -> good f0) ->
  ceval2 (f c) s = (out, s').

Lemma steps_agree l : forall i result s out s',
  steps ceval1 AND1 i result l s = (out, s') ->
  (forall f0, out = Fault f0 -> good f0) ->
  steps ceval2 AND2 i result (map (fun oc => (g (fst oc), f (snd oc))) l) s
  = (out, s').
Proof using g_test ceval_agree.
  induction l as [|[o c] l IH]; intros i result s out s' Hrun Hgood;
    simpl in *; [exact Hrun|].
  rewrite g_test.
  assert (Hvisit :
    match ceval1 c (log_eval i s) with
    | (Ok r, s1) => steps ceval1 AND1 (S i) r l s1
    | (Fault f0, s1) => (Fault f0, s1)
    end = (out, s') ->
    match ceval2 (f c) (log_eval i s) with
    | (Ok r, s1) =>
        steps ceval2 AND2 (S i) r (map (fun oc => (g (fst oc), f (snd oc))) l) s1
    | (Fault f0, s1) => (Fault f0, s1)
    end = (out, s')).
  { destruct (ceval1 c (log_eval i s)) as [[r|f0] s1] eqn:E; intros Hrest.
    - rewrite (ceval_agree _ _ _ _ E) by discriminate.
      apply IH; assumption.
    - inversion Hrest; subst.
      rewrite (ceval_agree _ _ _ _ E); [reflexivity|].
      intros f1 [= <-]. apply Hgood. reflexivity. }
  destruct (o =? AND1), result; auto.
Qed.

Lemma walk_agree c0 l s out s' :
  walk ceval1 AND1 c0 l s = (out, s') ->
  (forall f0, out = Fault f0 -> good f0) ->
  walk ceval2 AND2 (f c0) (map (fun oc => (g (fst oc), f (snd oc))) l) s
  = (out, s').
Proof using g_test ceval_agree.
  unfold walk. intros Hrun Hgood.
  destruct (ceval1 c0 (log_eval 0 s)) as [[r|f0] s1] eqn:E.
  - rewrite (ceval_agree _ _ _ _ E) by discriminate.
    apply steps_agree; assumption.
  - inversion Hrun; subst.
    rewrite (ceval_agree _ _ _ _ E); [reflexivity|].
    intros f1 [= <-]. apply Hgood. reflexivity.
Qed.

End TwoWalks.

Lemma zip_map_map {A B A' B'} (g : A -> A') (f : B -> B') (l : list A) :
  forall k : list B,
  zip (map g l) (map f k) = map (fun oc => (g (fst oc), f (snd oc))) (zip l k).
Proof.
  induction l as [|x l IH]; intros [|y k]; simpl; try reflexivity.
  f_equal. apply IH.
Qed.

Lemma upgrade_well_formed w : V1_well_formed w -> V2_well_formed (upgrade w).
Proof.
  unfold V1_well_formed, V2_well_formed, upgrade. simpl.
  rewrite !length_map. auto.
Qed.

Lemma upgrade_condition_agrees c s out s' :
  V1.base_eval c s = (out, s') ->
  (forall f0, out = Fault f0 -> forall e, f0 <> Throw e) ->
  V2.base_eval (upgrade_condition c) s = (out, s').
Proof.
  destruct c as [T CT c]. simpl. rewrite V1_eval_spec, V2_eval_spec. simpl.
  unfold V1_answer, V2_answer. simpl.
  destruct (cell_at _ _) as [cell|]; [|auto].
  destruct (from_cell cell) as [val|e]; [auto|].
  intros [= <- <-] Hgood. exfalso. exact (Hgood _ eq_refl e eq_refl).
Qed.

(** X4.  Wherever the recursive [Where::eval] of [where.cpp] ends without
    an exception, the iterative [Where::eval] of the reworked program, run
    on the same predicate written with its constants, ends in the same way:
    the same result, the same header, the same conditions evaluated. *)
Theorem iterative_agrees_with_recursive :
  forall (w : V1.Where) (s : store),
    V1_well_formed w ->
    (forall e, fst (V1.Where_eval w s) <> Fault (Throw e)) ->
    V2.Where_eval (upgrade w) s = V1.Where_eval w s.
Proof.
  intros w s Hwf Hno.
  destruct (V1_eval_is_walk w Hwf) as (c0 & cs & Hc & Hlen & Hwalk).
  destruct (V2_eval_is_walk (upgrade w) (upgrade_well_formed w Hwf))
    as (c0' & cs' & Hc' & Hlen' & Hwalk').
  rewrite Hwalk', Hwalk. rewrite Hwalk in Hno.
  unfold upgrade in Hc'. simpl in Hc'. rewrite Hc in Hc'. simpl in Hc'.
  injection Hc' as <- <-. unfold upgrade. simpl.
  rewrite zip_map_map.
  destruct (walk V1.base_eval V1.AND c0 (zip (V1.operators w) cs) s)
    as [out s'] eqn:E.
  assert (Htest : forall o,
            (upgrade_operator o =? V2.Operator.AND) = (o =? V1.AND)).
  { intros o. unfold upgrade_operator. destruct (o =? V1.AND); reflexivity. }
  apply (walk_agree V1.base_eval V2.base_eval V1.AND V2.Operator.AND
           upgrade_condition upgrade_operator
           (fun f0 => forall e, f0 <> Throw e)
           Htest upgrade_condition_agrees c0 _ s out s' E).
  intros f0 -> e Heq. subst f0. exact (Hno e eq_refl).
Qed.

Lemma iterative_agrees_with_recursive_witness :
  V2.Where_eval (upgrade v1_mixed) on_bill = V1.Where_eval v1_mixed on_bill.
Proof.
  apply iterative_agrees_with_recursive; [reflexivity|].
  intros e. vm_compute. discriminate.
Defined.

Lemma map_pair_id {A B} (g : A -> A) (l : list (A * B)) :
  map (fun oc => (g (fst oc), id (snd oc))) l
  = map (fun oc => (g (fst oc), snd oc)) l.
Proof. reflexivity. Qed.

Lemma zip_map_l {A B} (g : A -> A) (l : list A) : forall k : list B,
  zip (map g l) k = map (fun oc => (g (fst oc), id (snd oc))) (zip l k).
Proof.
  induction l as [|x l IH]; intros [|y k]; simpl; try reflexivity.
  f_equal. apply IH.
Qed.

(** X5.  [Where::eval] only tests an operator against [AND]: every other
    value, whatever it is, acts as [OR].  Replacing each operator of a
    well-formed predicate by what the test makes of it changes nothing. *)
Theorem other_operators_act_as_or :
  (forall (w : V1.Where) (s : store),
     V1_well_formed w ->
     V1.Where_eval
       (V1.mkWhere (V1.conditions w) (map V1_as_tested (V1.operators w))) s
     = V1.Where_eval w s)
  /\
  (forall (w : V2.Where) (s : store),
     V2_well_formed w ->
     V2.Where_eval
       (V2.mkWhere (V2.conditions w) (map V2_as_tested (V2.operators w))) s
     = V2.Where_eval w s).
Proof.
  split; intros w s Hwf.
  - destruct (V1_eval_is_walk w Hwf) as (c0 & cs & Hc & Hlen & Hwalk).
    assert (Hwf' : V1_well_formed
              (V1.mkWhere (V1.conditions w) (map V1_as_tested (V1.operators w)))).
    { unfold V1_well_formed in *. simpl. rewrite length_map. exact Hwf. }
    destruct (V1_eval_is_walk _ Hwf') as (c0' & cs' & Hc' & Hlen' & Hwalk').
    simpl in Hc'. rewrite Hc in Hc'. injection Hc' as <- <-.
    rewrite Hwalk', Hwalk. simpl. rewrite zip_map_l.
    destruct (walk V1.base_eval V1.AND c0 (zip (V1.operators w) cs) s)
      as [out s'] eqn:E.
    apply (walk_agree V1.base_eval V1.base_eval V1.AND V1.AND id V1_as_tested
             (fun _ => True)) with (c0 := c0) (s := s); [| |exact E|auto].
    + intros o. unfold V1_as_tested. destruct (o =? V1.AND) eqn:Eo; [reflexivity|].
      reflexivity.
    + intros c s0 out0 s0' H _. exact H.
  - destruct (V2_eval_is_walk w Hwf) as (c0 & cs & Hc & Hlen & Hwalk).
    assert (Hwf' : V2_well_formed
              (V2.mkWhere (V2.conditions w) (map V2_as_tested (V2.operators w)))).
    { unfold V2_well_formed in *. simpl. rewrite length_map. exact Hwf. }
    destruct (V2_eval_is_walk _ Hwf') as (c0' & cs' & Hc' & Hlen' & Hwalk').
    simpl in Hc'. rewrite Hc in Hc'. injection Hc' as <- <-.
    rewrite Hwalk', Hwalk. simpl. rewrite zip_map_l.
    destruct (walk V2.base_eval V2.Operator.AND c0 (zip (V2.operators w) cs) s)
      as [out s'] eqn:E.
    apply (walk_agree V2.base_eval V2.base_eval V2.Operator.AND V2.Operator.AND
             id V2_as_tested (fun _ => True)) with (c0 := c0) (s := s);
      [| |exact E|auto].
    + intros o. unfold V2_as_tested.
      destruct (o =? V2.Operator.AND) eqn:Eo; [reflexivity|]. reflexivity.
    + intros c s0 out0 s0' H _. exact H.
Qed.

(** A predicate of the reworked program joined with the constants of
    [where.cpp]: [Where::AND] (0) is no [Operator::AND] (7). *)
Lemma other_operators_act_as_or_witness :
  V2.Where_eval
    (V2.mkWhere (V2.conditions v2_all_and) [V2.Operator.OR; V2.Operator.OR])
    on_jenny
  = V2.Where_eval
      (V2.mkWhere (V2.conditions v2_all_and) [V1.AND; V1.AND]) on_jenny.
Proof.
  apply (proj2 other_operators_act_as_or
           (V2.mkWhere (V2.conditions v2_all_and) [V1.AND; V1.AND]) on_jenny).
  reflexivity.
Defined.

Lemma V1_chain_spec rest : forall w,
  fold_left (fun w oc => V1.AddCondition (snd oc) (V1.AddOperator (fst oc) w))
            rest w
  = V1.mkWhere (V1.conditions w ++ map snd rest) (V1.operators w ++ map fst rest).
Proof.
  induction rest as [|[o c] rest IH]; intros w; simpl.
  - rewrite !app_nil_r. destruct w; reflexivity.
  - rewrite IH. simpl. rewrite <- !app_assoc. reflexivity.
Qed.

Lemma V2_chain_spec rest : forall w,
  fold_left (fun w oc => V2.AddCondition (snd oc) (V2.AddOperator (fst oc) w))
            rest w
  = V2.mkWhere (V2.conditions w ++ map snd rest) (V2.operators w ++ map fst rest).
Proof.
  induction rest as [|[o c] rest IH]; intros w; simpl.
  - rewrite !app_nil_r. destruct w; reflexivity.
  - rewrite IH. simpl. rewrite <- !app_assoc. reflexivity.
Qed.

(** X6.  The fluent chain builds what it lists: the conditions and the
    operators in call order, one operator fewer than conditions.  One more
    [AddOperator] with no condition after it breaks that count. *)
Theorem chain_builds_well_formed :
  (forall c0 rest,
     V1_chain c0 rest = V1.mkWhere (c0 :: map snd rest) (map fst rest)
     /\ V1_well_formed (V1_chain c0 rest)
     /\ ~ V1_well_formed (V1.AddOperator V1.AND (V1_chain c0 rest)))
  /\
  (forall c0 rest,
     V2_chain c0 rest = V2.mkWhere (c0 :: map snd rest) (map fst rest)
     /\ V2_well_formed (V2_chain c0 rest)
     /\ ~ V2_well_formed (V2.AddOperator V2.Operator.AND (V2_chain c0 rest))).
Proof.
  split; intros c0 rest.
  - unfold V1_chain. rewrite V1_chain_spec. simpl.
    unfold V1_well_formed. simpl. rewrite length_app, !length_map. simpl.
    repeat split; lia.
  - unfold V2_chain. rewrite V2_chain_spec. simpl.
    unfold V2_well_formed. simpl. rewrite length_app, !length_map. simpl.
    repeat split; lia.
Qed.

(** ** One more operator and condition at the end *)

Section WalkSnoc.
Context {C : Type}.
Variable ceval : C -> M bool.
Variable AND : operator_t.

Lemma steps_snoc_or l : forall i result s o c,
  o <> AND ->
  steps ceval AND i result (l ++ [(o, c)]) s =
    match steps ceval AND i result l s with
    | (Ok true, s') => (Ok true, s')
    | (Ok false, s') => ceval c (log_eval (i + length l) s')
    | (Fault f, s') => (Fault f, s')
    end.
Proof.
  induction l as [|[o1 c1] l IH]; intros i result s o c Ho; simpl.
  - destruct (Z.eqb_spec o AND) as [E|_]; [contradiction|].
    rewrite Nat.add_0_r. destruct result; [reflexivity|].
    destruct (ceval c (log_eval i s)) as [[r|f] s']; reflexivity.
  - rewrite <- Nat.add_succ_comm.
    destruct (o1 =? AND), result; try (apply IH; assumption); try reflexivity.
    all: destruct (ceval c1 (log_eval i s)) as [[r|f] s'];
      [apply IH; assumption|reflexivity].
Qed.

Lemma steps_snoc_and_false l : forall i result s s' c,
  steps ceval AND i result l s = (Ok false, s') ->
  steps ceval AND i result (l ++ [(AND, c)]) s = (Ok false, s').
Proof.
  induction l as [|[o1 c1] l IH]; intros i result s s' c Hrun; simpl in *.
  - rewrite Z.eqb_refl. inversion Hrun; subst. reflexivity.
  - destruct (o1 =? AND), result; try (apply IH; assumption);
      try discriminate Hrun.
    all: destruct (ceval c1 (log_eval i s)) as [[r|f] s1];
      [apply IH; assumption|discriminate Hrun].
Qed.

Lemma walk_snoc_or c0 l s o c :
  o <> AND ->
  walk ceval AND c0 (l ++ [(o, c)]) s =
    match walk ceval AND c0 l s with
    | (Ok true, s') => (Ok true, s')
    | (Ok false, s') => ceval c (log_eval (S (length l)) s')
    | (Fault f, s') => (Fault f, s')
    end.
Proof.
  intros Ho. unfold walk.
  destruct (ceval c0 (log_eval 0 s)) as [[r|f] s1]; [|reflexivity].
  apply steps_snoc_or. exact Ho.
Qed.

Lemma walk_snoc_and_false c0 l s s' c :
  walk ceval AND c0 l s = (Ok false, s') ->
  walk ceval AND c0 (l ++ [(AND, c)]) s = (Ok false, s').
Proof.
  unfold walk.
  destruct (ceval c0 (log_eval 0 s)) as [[r|f] s1]; [|discriminate].
  apply steps_snoc_and_false.
Qed.

End WalkSnoc.

Lemma zip_snoc {A B} (l : list A) : forall (k : list B) x y,
  length l = length k ->
  zip (l ++ [x]) (k ++ [y]) = (zip l k ++ [(x, y)])%list.
Proof.
  induction l as [|a l IH]; intros [|b k] x y Hlen; simpl in *;
    try discriminate; [reflexivity|].
  f_equal. apply IH. lia.
Qed.

Lemma V1_add_is_walk w o c :
  V1_well_formed w ->
  exists c0 cs,
    V1.conditions w = c0 :: cs
    /\ length (V1.operators w) = length cs
    /\ (forall s, V1.Where_eval w s
                  = walk V1.base_eval V1.AND c0 (zip (V1.operators w) cs) s)
    /\ (forall s, V1.Where_eval (V1.AddCondition c (V1.AddOperator o w)) s
                  = walk V1.base_eval V1.AND c0
                      (zip (V1.operators w) cs ++ [(o, c)]) s).
Proof.
  intros Hwf.
  destruct (V1_eval_is_walk w Hwf) as (c0 & cs & Hc & Hlen & Hwalk).
  exists c0, cs. repeat split; try assumption.
  intros s.
  assert (Hwf' : V1_well_formed (V1.AddCondition c (V1.AddOperator o w))).
  { unfold V1_well_formed in *. simpl. rewrite !length_app. simpl. lia. }
  destruct (V1_eval_is_walk _ Hwf') as (c0' & cs' & Hc' & Hlen' & Hwalk').
  simpl in Hc', Hwalk'. rewrite Hc in Hc'. simpl in Hc'.
  injection Hc' as <- <-. rewrite Hwalk'.
  rewrite zip_snoc by assumption. reflexivity.
Qed.

Lemma V2_add_is_walk w o c :
  V2_well_formed w ->
  exists c0 cs,
    V2.conditions w = c0 :: cs
    /\ length (V2.operators w) = length cs
    /\ (forall s, V2.Where_eval w s
                  = walk V2.base_eval V2.Operator.AND c0
                      (zip (V2.operators w) cs) s)
    /\ (forall s, V2.Where_eval (V2.AddCondition c (V2.AddOperator o w)) s
                  = walk V2.base_eval V2.Operator.AND c0
                      (zip (V2.operators w) cs ++ [(o, c)]) s).
Proof.
  intros Hwf.
  destruct (V2_eval_is_walk w Hwf) as (c0 & cs & Hc & Hlen & Hwalk).
  exists c0, cs. repeat split; try assumption.
  intros s.
  assert (Hwf' : V2_well_formed (V2.AddCondition c (V2.AddOperator o w))).
  { unfold V2_well_formed in *. simpl. rewrite !length_app. simpl. lia. }
  destruct (V2_eval_is_walk _ Hwf') as (c0' & cs' & Hc' & Hlen' & Hwalk').
  simpl in Hc', Hwalk'. rewrite Hc in Hc'. simpl in Hc'.
  injection Hc' as <- <-. rewrite Hwalk'.
  rewrite zip_snoc by assumption. reflexivity.
Qed.

Lemma length_zip_same {A B} (l : list A) : forall k : list B,
  length l = length k -> length (zip l k) = length k.
Proof.
  induction l as [|a l IH]; intros [|b k] Hlen; simpl in *;
    try discriminate; [reflexivity|].
  f_equal. apply IH. lia.
Qed.

(** X7.  Adding [OR c] at the end of a well-formed predicate [w] gives the
    short-circuit disjunction of [w] and [c]: where [w] is true the result
    is true and [c] is not evaluated; where [w] is false the result is what
    [c] evaluates to, on the header [w] left; a fault of [w] stays. *)
Theorem add_or_condition :
  (forall (w : V1.Where) (c : V1.ConditionBase) (s : store),
     V1_well_formed w ->
     V1.Where_eval (V1.AddCondition c (V1.AddOperator V1.OR w)) s =
       match V1.Where_eval w s with
       | (Ok true, s') => (Ok true, s')
       | (Ok false, s') =>
           V1.base_eval c (log_eval (length (V1.conditions w)) s')
       | (Fault f, s') => (Fault f, s')
       end)
  /\
  (forall (w : V2.Where) (c : V2.ConditionBase) (s : store),
     V2_well_formed w ->
     V2.Where_eval (V2.AddCondition c (V2.AddOperator V2.Operator.OR w)) s =
       match V2.Where_eval w s with
       | (Ok true, s') => (Ok true, s')
       | (Ok false, s') =>
           V2.base_eval c (log_eval (length (V2.conditions w)) s')
       | (Fault f, s') => (Fault f, s')
       end).
Proof.
  split; intros w c s Hwf.
  - destruct (V1_add_is_walk w V1.OR c Hwf)
      as (c0 & cs & Hc & Hlen & Hwalk & Hwalk').
    rewrite Hwalk', Hwalk, Hc. simpl.
    rewrite walk_snoc_or by discriminate.
    rewrite length_zip_same by assumption. reflexivity.
  - destruct (V2_add_is_walk w V2.Operator.OR c Hwf)
      as (c0 & cs & Hc & Hlen & Hwalk & Hwalk').
    rewrite Hwalk', Hwalk, Hc. simpl.
    rewrite walk_snoc_or by discriminate.
    rewrite length_zip_same by assumption. reflexivity.
Qed.

Lemma add_or_condition_witness :
  V1.Where_eval
    (V1.AddCondition (V1.AnyCondition v1_surname)
       (V1.AddOperator V1.OR v1_all_and)) on_jenny
  = V1.base_eval (V1.AnyCondition v1_surname)
      (log_eval 3 (snd (V1.Where_eval v1_all_and on_jenny)))
  /\
  fst (V2.Where_eval
    (V2.AddCondition (V2.AnyCondition v2_surname)
       (V2.AddOperator V2.Operator.OR v2_mixed)) on_jenny)
  = Ok true.
Proof.
  split.
  - rewrite (proj1 add_or_condition v1_all_and (V1.AnyCondition v1_surname)
               on_jenny eq_refl).
    vm_compute. reflexivity.
  - rewrite (proj2 add_or_condition v2_mixed (V2.AnyCondition v2_surname)
               on_jenny eq_refl).
    vm_compute. reflexivity.
Defined.

(** X8.  Adding [AND c] at the end of a well-formed predicate that is false
    on a row leaves it false, and [c] is not evaluated: the store is the one
    the shorter predicate left. *)
Theorem add_and_condition_to_false :
  (forall (w : V1.Where) (c : V1.ConditionBase) (s s' : store),
     V1_well_formed w ->
     V1.Where_eval w s = (Ok false, s') ->
     V1.Where_eval (V1.AddCondition c (V1.AddOperator V1.AND w)) s
     = (Ok false, s'))
  /\
  (forall (w : V2.Where) (c : V2.ConditionBase) (s s' : store),
     V2_well_formed w ->
     V2.Where_eval w s = (Ok false, s') ->
     V2.Where_eval (V2.AddCondition c (V2.AddOperator V2.Operator.AND w)) s
     = (Ok false, s')).
Proof.
  split; intros w c s s' Hwf Hrun.
  - destruct (V1_add_is_walk w V1.AND c Hwf)
      as (c0 & cs & Hc & Hlen & Hwalk & Hwalk').
    rewrite Hwalk'. rewrite Hwalk in Hrun.
    apply walk_snoc_and_false. exact Hrun.
  - destruct (V2_add_is_walk w V2.Operator.AND c Hwf)
      as (c0 & cs & Hc & Hlen & Hwalk & Hwalk').
    rewrite Hwalk'. rewrite Hwalk in Hrun.
    apply walk_snoc_and_false. exact Hrun.
Qed.

Lemma add_and_condition_to_false_witness :
  V1.Where_eval
    (V1.AddCondition (V1.AnyCondition v1_score_int)
       (V1.AddOperator V1.AND v1_mixed)) on_bill
  = (Ok false, snd (V1.Where_eval v1_mixed on_bill))
  /\
  V2.Where_eval
    (V2.AddCondition (V2.AnyCondition v2_score_int)
       (V2.AddOperator V2.Operator.AND v2_mixed)) on_bill
  = (Ok false, snd (V2.Where_eval v2_mixed on_bill)).
Proof.
  split.
  - apply (proj1 add_and_condition_to_false); [reflexivity|].
    vm_compute. reflexivity.
  - apply (proj2 add_and_condition_to_false); [reflexivity|].
    vm_compute. reflexivity.
Defined.

(** ** The loop of [main] *)

Lemma V1_eval_after w s r' :
  V1_well_formed w ->
  fst (V1.Where_eval w (mkStore (header (snd (V1.Where_eval w s))) r' []))
  = fst (V1.Where_eval w (mkStore (header s) r' [])).
Proof.
  intros Hwf.
  destruct (V1_eval_is_walk w Hwf) as (c0 & cs & Hc & Hlen & Hwalk).
  rewrite !Hwalk.
  rewrite !(walk_pwalk V1.base_eval V1.base_column V1.AND
              V1_base_eval_spec V1_value_of_touch). simpl.
  rewrite (pwalk_touch_all V1.base_eval V1.base_column V1.AND
             V1_value_of_touch). reflexivity.
Qed.

Lemma V2_eval_after w s r' :
  V2_well_formed w ->
  fst (V2.Where_eval w (mkStore (header (snd (V2.Where_eval w s))) r' []))
  = fst (V2.Where_eval w (mkStore (header s) r' [])).
Proof.
  intros Hwf.
  destruct (V2_eval_is_walk w Hwf) as (c0 & cs & Hc & Hlen & Hwalk).
  rewrite !Hwalk.
  rewrite !(walk_pwalk V2.base_eval V2.base_column V2.Operator.AND
              V2_base_eval_spec V2_value_of_touch). simpl.
  rewrite (pwalk_touch_all V2.base_eval V2.base_column V2.Operator.AND
             V2_value_of_touch). reflexivity.
Qed.

Lemma V1_main_loop_filter w : forall table h,
  V1_well_formed w ->
  (forall r, r ∈ table ->
             exists b, fst (V1.Where_eval w (mkStore h r [])) = Ok b) ->
  fst (V1_main_loop w h table)
  = (print_rows (List.filter (V1_matches w h) table), None).
Proof.
  induction table as [|r rest IH]; intros h Hwf Hok; simpl; [reflexivity|].
  destruct (Hok r) as [b Hb]; [left|].
  destruct (V1.Where_eval w (mkStore h r [])) as [out s'] eqn:E.
  simpl in Hb. subst out.
  assert (Hs' : s' = snd (V1.Where_eval w (mkStore h r [])))
    by (rewrite E; reflexivity).
  assert (Hsame : forall r', fst (V1.Where_eval w (mkStore (header s') r' []))
                             = fst (V1.Where_eval w (mkStore h r' []))).
  { intros r'. rewrite Hs'. apply (V1_eval_after w (mkStore h r []) r' Hwf). }
  assert (IH' := IH (header s') Hwf).
  destruct (V1_main_loop w (header s') rest) as [[out stop] h'].
  simpl in IH'. simpl fst.
  assert (Hrest : forall r', r' ∈ rest ->
            exists b', fst (V1.Where_eval w (mkStore (header s') r' [])) = Ok b').
  { intros r' Hin. rewrite Hsame. apply Hok. right. exact Hin. }
  specialize (IH' Hrest). injection IH' as -> ->.
  unfold V1_matches at 2. rewrite E. simpl.
  rewrite (List.filter_ext (V1_matches w (header s')) (V1_matches w h)).
  - destruct b; reflexivity.
  - intros r'. unfold V1_matches. rewrite Hsame. reflexivity.
Qed.

Lemma V2_main_loop_filter w : forall table h,
  V2_well_formed w ->
  (forall r, r ∈ table ->
             exists b, fst (V2.Where_eval w (mkStore h r [])) = Ok b) ->
  fst (V2_main_loop w h table)
  = (print_rows (List.filter (V2_matches w h) table), None).
Proof.
  induction table as [|r rest IH]; intros h Hwf Hok; simpl; [reflexivity|].
  destruct (Hok r) as [b Hb]; [left|].
  destruct (V2.Where_eval w (mkStore h r [])) as [out s'] eqn:E.
  simpl in Hb. subst out.
  assert (Hs' : s' = snd (V2.Where_eval w (mkStore h r [])))
    by (rewrite E; reflexivity).
  assert (Hsame : forall r', fst (V2.Where_eval w (mkStore (header s') r' []))
                             = fst (V2.Where_eval w (mkStore h r' []))).
  { intros r'. rewrite Hs'. apply (V2_eval_after w (mkStore h r []) r' Hwf). }
  assert (IH' := IH (header s') Hwf).
  destruct (V2_main_loop w (header s') rest) as [[out stop] h'].
  simpl in IH'. simpl fst.
  assert (Hrest : forall r', r' ∈ rest ->
            exists b', fst (V2.Where_eval w (mkStore (header s') r' [])) = Ok b').
  { intros r' Hin. rewrite Hsame. apply Hok. right. exact Hin. }
  specialize (IH' Hrest). injection IH' as -> ->.
  unfold V2_matches at 2. rewrite E. simpl.
  rewrite (List.filter_ext (V2_matches w (header s')) (V2_matches w h)).
  - destruct b; reflexivity.
  - intros r'. unfold V2_matches. rewrite Hsame. reflexivity.
Qed.

(** X9.  When [eval] returns a boolean on every row of the table, the loop
    of [main] runs to the end and prints, in table order, exactly the rows
    on which [eval] is true under the header the loop started with: what
    the calls on earlier rows insert into the header changes no later
    answer. *)
Theorem main_loop_prints_matching_rows :
  (forall (w : V1.Where) (h : header_t) (table : list row_t),
     V1_well_formed w ->
     (forall r, r ∈ table ->
                exists b, fst (V1.Where_eval w (mkStore h r [])) = Ok b) ->
     fst (V1_main_loop w h table)
     = (print_rows (List.filter (V1_matches w h) table), None))
  /\
  (forall (w : V2.Where) (h : header_t) (table : list row_t),
     V2_well_formed w ->
     (forall r, r ∈ table ->
                exists b, fst (V2.Where_eval w (mkStore h r [])) = Ok b) ->
     fst (V2_main_loop w h table)
     = (print_rows (List.filter (V2_matches w h) table), None)).
Proof.
  split; intros w h table.
  - apply V1_main_loop_filter.
  - apply V2_main_loop_filter.
Qed.

Lemma main_loop_prints_matching_rows_witness :
  fst (V1_main_loop v1_mixed demo_header demo_table)
  = (print_rows [row_jenny; row_paul], None)
  /\
  fst (V2_main_loop v2_mixed demo_header demo_table)
  = (print_rows [row_jenny; row_paul], None).
Proof.
  split.
  - apply (proj1 main_loop_prints_matching_rows v1_mixed demo_header demo_table);
      [reflexivity|].
    intros r Hin.
    repeat (apply elem_of_cons in Hin as [->|Hin]; [vm_compute; eauto|]).
    apply elem_of_nil in Hin. destruct Hin.
  - apply (proj2 main_loop_prints_matching_rows v2_mixed demo_header demo_table);
      [reflexivity|].
    intros r Hin.
    repeat (apply elem_of_cons in Hin as [->|Hin]; [vm_compute; eauto|]).
    apply elem_of_nil in Hin. destruct Hin.
Defined.

(** ** What [std::stoi] leaves unread *)

Lemma digits_from_junk acc t :
  starts_with_digit t = false ->
  digits_from acc true t = Some acc.
Proof.
  destruct t as [|c t]; simpl; [reflexivity|].
  destruct (digit_of c); [discriminate|reflexivity].
Qed.

Lemma digits_from_app s : forall acc seen t,
  all_digits s = true ->
  starts_with_digit t = false ->
  digits_from acc seen (s ++ t) = digits_from acc seen s.
Proof.
  induction s as [|c s IH]; intros acc seen t Hs Ht; simpl in *;
    [discriminate|].
  destruct (digit_of c) as [d|]; [|discriminate].
  destruct s as [|c' s'].
  - simpl. apply digits_from_junk. exact Ht.
  - apply IH; assumption.
Qed.

Lemma stoi_minus s : stoi (String "-" s) = stoi_finish true (digits_from 0 false s).
Proof. reflexivity. Qed.

Lemma stoi_plus s : stoi (String "+" s) = stoi_finish false (digits_from 0 false s).
Proof. reflexivity. Qed.

Lemma stoi_digit c s d :
  digit_of c = Some d ->
  stoi (String c s) = stoi_finish false (digits_from 0 false (String c s)).
Proof.
  destruct c as [[] [] [] [] [] [] [] []]; intros Hd;
    try discriminate Hd; reflexivity.
Qed.

Lemma parses_fully_unsigned c s :
  c <> "-"%char -> c <> "+"%char ->
  parses_fully_as_int (String c s) = all_digits (String c s).
Proof.
  destruct c as [[] [] [] [] [] [] [] []]; intros H1 H2;
    try reflexivity; exfalso; (apply H1; reflexivity) || (apply H2; reflexivity).
Qed.

Lemma stoi_app s t :
  parses_fully_as_int s = true ->
  starts_with_digit t = false ->
  stoi (s ++ t) = stoi s.
Proof.
  intros Hs Ht. destruct s as [|c s]; [discriminate|].
  change (String c s ++ t) with (String c (s ++ t)).
  destruct (ascii_dec c "-") as [->|Hm].
  { rewrite !stoi_minus. simpl in Hs.
    rewrite digits_from_app by assumption. reflexivity. }
  destruct (ascii_dec c "+") as [->|Hp].
  { rewrite !stoi_plus. simpl in Hs.
    rewrite digits_from_app by assumption. reflexivity. }
  rewrite parses_fully_unsigned in Hs by assumption.
  assert (Hd : exists d, digit_of c = Some d).
  { simpl in Hs. destruct (digit_of c) as [d|]; [eauto|discriminate]. }
  destruct Hd as [d Hd].
  rewrite !(stoi_digit c _ d Hd).
  change (String c (s ++ t)) with (String c s ++ t).
  rewrite digits_from_app by assumption. reflexivity.
Qed.

(** X10.  An [int] condition reads the number at the start of the cell and
    nothing after it: a cell made of a fully parsing integer followed by
    text that does not start with a digit gives the answer the integer
    alone gives. *)
Theorem trailing_text_is_ignored :
  (forall (c : V1.Condition Z) (h : header_t) (r r' : row_t) (num junk : string),
     parses_fully_as_int num = true ->
     starts_with_digit junk = false ->
     cell_at r (column_index (V1.column c) h) = Some (num ++ junk) ->
     cell_at r' (column_index (V1.column c) h) = Some num ->
     fst (V1.eval c (mkStore h r [])) = fst (V1.eval c (mkStore h r' [])))
  /\
  (forall (c : V2.Condition Z) (h : header_t) (r r' : row_t) (num junk : string),
     parses_fully_as_int num = true ->
     starts_with_digit junk = false ->
     cell_at r (column_index (V2.column c) h) = Some (num ++ junk) ->
     cell_at r' (column_index (V2.column c) h) = Some num ->
     fst (V2.eval c (mkStore h r [])) = fst (V2.eval c (mkStore h r' []))).
Proof.
  split; intros c h r r' num junk Hnum Hjunk Hr Hr'.
  - rewrite !V1_eval_spec. simpl. unfold V1_answer. rewrite Hr, Hr'. simpl.
    rewrite stoi_app by assumption. reflexivity.
  - rewrite !V2_eval_spec. simpl. unfold V2_answer. rewrite Hr, Hr'. simpl.
    rewrite stoi_app by assumption. reflexivity.
Qed.

Lemma trailing_text_is_ignored_witness :
  fst (V1.eval (V1.mkCondition "age" V1.GT 10) on_dirty)
  = fst (V1.eval (V1.mkCondition "age" V1.GT 10)
           (mkStore demo_header ["Jenny Ho"; "12"] []))
  /\
  fst (V2.eval v2_age_is_12 on_dirty)
  = fst (V2.eval v2_age_is_12 (mkStore demo_header ["Jenny Ho"; "12"] [])).
Proof.
  split.
  - apply (proj1 trailing_text_is_ignored (V1.mkCondition "age" V1.GT 10)
             demo_header row_dirty ["Jenny Ho"; "12"] "12" "abc");
      vm_compute; reflexivity.
  - apply (proj2 trailing_text_is_ignored v2_age_is_12
             demo_header row_dirty ["Jenny Ho"; "12"] "12" "abc");
      vm_compute; reflexivity.
Defined.

(** ** A condition and its opposite *)

Lemma Z_comparisons (a b : Z) :
  is_ne a b = negb (is_eq a b)
  /\ is_ge a b = negb (is_lt a b)
  /\ is_le a b = negb (is_gt a b).
Proof.
  unfold is_ne, is_ge, is_le, is_eq, is_lt, is_gt. simpl.
  destruct (a ?= b); repeat split; reflexivity.
Qed.

(** X11.  In the reworked program, on a cell that converts to an integer
    the conditions [!=], [>=] and [<=] answer the opposite of [=], [<] and
    [>] with the same column and literal; on a cell whose conversion throws,
    all six answer false, so such a row matches neither a condition nor its
    opposite. *)
Theorem opposite_int_conditions :
  forall (column : string) (value : Z) (s : store) (cell : string),
    cell_at (row s) (column_index column (header s)) = Some cell ->
    (forall v, stoi cell = Converted v ->
       exists b1 b2 b3,
         fst (V2.eval (V2.mkCondition column V2.Operator.EQ value) s) = Ok b1
         /\ fst (V2.eval (V2.mkCondition column V2.Operator.NE value) s)
            = Ok (negb b1)
         /\ fst (V2.eval (V2.mkCondition column V2.Operator.LT value) s) = Ok b2
         /\ fst (V2.eval (V2.mkCondition column V2.Operator.GE value) s)
            = Ok (negb b2)
         /\ fst (V2.eval (V2.mkCondition column V2.Operator.GT value) s) = Ok b3
         /\ fst (V2.eval (V2.mkCondition column V2.Operator.LE value) s)
            = Ok (negb b3))
    /\
    (forall e o, stoi cell = Raised e ->
       fst (V2.eval (V2.mkCondition column o value) s) = Ok false).
Proof.
  intros column value s cell Hcell. split.
  - intros v Hv.
    destruct (Z_comparisons v value) as (Hne & Hge & Hle).
    exists (is_eq v value), (is_lt v value), (is_gt v value).
    rewrite !V2_eval_spec. simpl. unfold V2_answer. simpl.
    rewrite Hcell. simpl. rewrite Hv.
    unfold V2.compare. simpl. rewrite <- Hne, <- Hge, <- Hle.
    repeat split; reflexivity.
  - intros e o He.
    rewrite V2_eval_spec. simpl. unfold V2_answer. simpl.
    rewrite Hcell. simpl. rewrite He. reflexivity.
Qed.

Lemma opposite_int_conditions_witness :
  fst (V2.eval (V2.mkCondition "score" V2.Operator.LT 60) on_dirty) = Ok false
  /\ fst (V2.eval (V2.mkCondition "score" V2.Operator.GE 60) on_dirty) = Ok false
  /\ exists b,
       fst (V2.eval (V2.mkCondition "age" V2.Operator.LT 60) on_jenny) = Ok b
       /\ fst (V2.eval (V2.mkCondition "age" V2.Operator.GE 60) on_jenny)
          = Ok (negb b).
Proof.
  split; [|split].
  - apply (proj2 (opposite_int_conditions "score" 60 on_dirty "n/a" eq_refl)
             invalid_argument V2.Operator.LT).
    vm_compute. reflexivity.
  - apply (proj2 (opposite_int_conditions "score" 60 on_dirty "n/a" eq_refl)
             invalid_argument V2.Operator.GE).
    vm_compute. reflexivity.
  - destruct (proj1 (opposite_int_conditions "age" 60 on_jenny "21" eq_refl)
                21 eq_refl) as (b1 & b2 & b3 & _ & _ & Hlt & Hge & _).
    exists b2. split; assumption.
Defined.

Lemma V1_main_loop_stops w f bad after : forall before h,
  V1_well_formed w ->
  (forall r, r ∈ before ->
             exists b, fst (V1.Where_eval w (mkStore h r [])) = Ok b) ->
  fst (V1.Where_eval w (mkStore h bad [])) = Fault f ->
  fst (V1_main_loop w h (before ++ bad :: after))
  = (print_rows (List.filter (V1_matches w h) before), Some f).
Proof.
  induction before as [|r rest IH]; intros h Hwf Hok Hbad; simpl.
  { destruct (V1.Where_eval w (mkStore h bad [])) as [out s'].
    simpl in Hbad. subst out. reflexivity. }
  destruct (Hok r) as [b Hb]; [left|].
  destruct (V1.Where_eval w (mkStore h r [])) as [out s'] eqn:E.
  simpl in Hb. subst out.
  assert (Hs' : s' = snd (V1.Where_eval w (mkStore h r [])))
    by (rewrite E; reflexivity).
  assert (Hsame : forall r', fst (V1.Where_eval w (mkStore (header s') r' []))
                             = fst (V1.Where_eval w (mkStore h r' []))).
  { intros r'. rewrite Hs'. apply (V1_eval_after w (mkStore h r []) r' Hwf). }
  assert (IH' := IH (header s') Hwf).
  destruct (V1_main_loop w (header s') (rest ++ bad :: after)) as [[out stop] h'].
  simpl in IH'. simpl fst.
  assert (Hrest : forall r', r' ∈ rest ->
            exists b', fst (V1.Where_eval w (mkStore (header s') r' [])) = Ok b').
  { intros r' Hin. rewrite Hsame. apply Hok. right. exact Hin. }
  rewrite Hsame in IH'. specialize (IH' Hrest Hbad). injection IH' as -> ->.
  unfold V1_matches at 2. rewrite E. simpl.
  rewrite (List.filter_ext (V1_matches w (header s')) (V1_matches w h)).
  - destruct b; reflexivity.
  - intros r'. unfold V1_matches. rewrite Hsame. reflexivity.
Qed.

Lemma V2_main_loop_stops w f bad after : forall before h,
  V2_well_formed w ->
  (forall r, r ∈ before ->
             exists b, fst (V2.Where_eval w (mkStore h r [])) = Ok b) ->
  fst (V2.Where_eval w (mkStore h bad [])) = Fault f ->
  fst (V2_main_loop w h (before ++ bad :: after))
  = (print_rows (List.filter (V2_matches w h) before), Some f).
Proof.
  induction before as [|r rest IH]; intros h Hwf Hok Hbad; simpl.
  { destruct (V2.Where_eval w (mkStore h bad [])) as [out s'].
    simpl in Hbad. subst out. reflexivity. }
  destruct (Hok r) as [b Hb]; [left|].
  destruct (V2.Where_eval w (mkStore h r [])) as [out s'] eqn:E.
  simpl in Hb. subst out.
  assert (Hs' : s' = snd (V2.Where_eval w (mkStore h r [])))
    by (rewrite E; reflexivity).
  assert (Hsame : forall r', fst (V2.Where_eval w (mkStore (header s') r' []))
                             = fst (V2.Where_eval w (mkStore h r' []))).
  { intros r'. rewrite Hs'. apply (V2_eval_after w (mkStore h r []) r' Hwf). }
  assert (IH' := IH (header s') Hwf).
  destruct (V2_main_loop w (header s') (rest ++ bad :: after)) as [[out stop] h'].
  simpl in IH'. simpl fst.
  assert (Hrest : forall r', r' ∈ rest ->
            exists b', fst (V2.Where_eval w (mkStore (header s') r' [])) = Ok b').
  { intros r' Hin. rewrite Hsame. apply Hok. right. exact Hin. }
  rewrite Hsame in IH'. specialize (IH' Hrest Hbad). injection IH' as -> ->.
  unfold V2_matches at 2. rewrite E. simpl.
  rewrite (List.filter_ext (V2_matches w (header s')) (V2_matches w h)).
  - destruct b; reflexivity.
  - intros r'. unfold V2_matches. rewrite Hsame. reflexivity.
Qed.

(** X12.  The loop of [main] ends at the first row on which [eval] faults
    (in [where.cpp], a cell that does not convert where no short circuit
    skips it): the matching rows before it are printed, the rows after it
    are never examined. *)
Theorem main_loop_stops_at_first_fault :
  (forall (w : V1.Where) (h : header_t) (before after : list row_t)
          (bad : row_t) (f : fault),
     V1_well_formed w ->
     (forall r, r ∈ before ->
                exists b, fst (V1.Where_eval w (mkStore h r [])) = Ok b) ->
     fst (V1.Where_eval w (mkStore h bad [])) = Fault f ->
     fst (V1_main_loop w h (before ++ bad :: after))
     = (print_rows (List.filter (V1_matches w h) before), Some f))
  /\
  (forall (w : V2.Where) (h : header_t) (before after : list row_t)
          (bad : row_t) (f : fault),
     V2_well_formed w ->
     (forall r, r ∈ before ->
                exists b, fst (V2.Where_eval w (mkStore h r [])) = Ok b) ->
     fst (V2.Where_eval w (mkStore h bad [])) = Fault f ->
     fst (V2_main_loop w h (before ++ bad :: after))
     = (print_rows (List.filter (V2_matches w h) before), Some f)).
Proof.
  split; intros w h before after bad f.
  - apply V1_main_loop_stops.
  - apply V2_main_loop_stops.
Qed.

Lemma main_loop_stops_at_first_fault_witness :
  fst (V1_main_loop v1_all_or demo_header ([row_jenny] ++ row_john :: [row_bill]))
  = (print_rows [row_jenny], Some (Throw invalid_argument))
  /\
  fst (V2_main_loop v2_mixed demo_header ([row_jenny] ++ ["Ann"] :: [row_bill]))
  = (print_rows [row_jenny], Some (OutOfBounds vec_row)).
Proof.
  split.
  - apply (proj1 main_loop_stops_at_first_fault v1_all_or demo_header
             [row_jenny] [row_bill] row_john (Throw invalid_argument)).
    + reflexivity.
    + intros r Hin.
      repeat (apply elem_of_cons in Hin as [->|Hin]; [vm_compute; eauto|]).
      apply elem_of_nil in Hin. destruct Hin.
    + vm_compute. reflexivity.
  - apply (proj2 main_loop_stops_at_first_fault v2_mixed demo_header
             [row_jenny] [row_bill] ["Ann"] (OutOfBounds vec_row)).
    + reflexivity.
    + intros r Hin.
      repeat (apply elem_of_cons in Hin as [->|Hin]; [vm_compute; eauto|]).
      apply elem_of_nil in Hin. destruct Hin.
    + vm_compute. reflexivity.
Defined.

(** ** What an evaluation depends on *)

Lemma psteps_ext {C : Type} (ceval : C -> M bool) (AND : operator_t)
  (h h' : header_t) (r r' : row_t) (l : list (operator_t * C)) :
  forall i result,
  (forall c, c ∈ map snd l -> value_of ceval c h r = value_of ceval c h' r') ->
  psteps ceval AND h r i result l = psteps ceval AND h' r' i result l.
Proof.
  induction l as [|[o c] l IH]; intros i result Hsame; simpl in *;
    [reflexivity|].
  rewrite (Hsame c) by left.
  assert (IH' : forall i result,
            psteps ceval AND h r i result l = psteps ceval AND h' r' i result l).
  { intros. apply IH. intros c' Hin. apply Hsame. right. exact Hin. }
  destruct (o =? AND), result, (value_of ceval c h' r');
    try rewrite IH'; reflexivity.
Qed.

Lemma pwalk_ext {C : Type} (ceval : C -> M bool) (AND : operator_t)
  (h h' : header_t) (r r' : row_t) (c0 : C) (l : list (operator_t * C)) :
  (forall c, c ∈ c0 :: map snd l ->
             value_of ceval c h r = value_of ceval c h' r') ->
  pwalk ceval AND h r c0 l = pwalk ceval AND h' r' c0 l.
Proof.
  intros Hsame. unfold pwalk. rewrite (Hsame c0) by left.
  destruct (value_of ceval c0 h' r'); [|reflexivity].
  rewrite (psteps_ext ceval AND h h' r r'); [reflexivity|].
  intros c' Hin. apply Hsame. right. exact Hin.
Qed.

(** X13.  [eval] reads a row only through the cells of the predicate's
    columns: two headers and rows that give every condition of a
    well-formed predicate the same cell (at the index of its column, 0 when
    the header lacks it) give the same result and the same conditions
    evaluated, whatever the other columns and cells are. *)
Theorem eval_reads_only_its_columns :
  (forall (w : V1.Where) (h h' : header_t) (r r' : row_t),
     V1_well_formed w ->
     (forall c, c ∈ V1.conditions w ->
        cell_at r (column_index (V1.base_column c) h)
        = cell_at r' (column_index (V1.base_column c) h')) ->
     fst (V1.Where_eval w (mkStore h r []))
     = fst (V1.Where_eval w (mkStore h' r' []))
     /\ evaluated (snd (V1.Where_eval w (mkStore h r [])))
        = evaluated (snd (V1.Where_eval w (mkStore h' r' []))))
  /\
  (forall (w : V2.Where) (h h' : header_t) (r r' : row_t),
     V2_well_formed w ->
     (forall c, c ∈ V2.conditions w ->
        cell_at r (column_index (V2.base_column c) h)
        = cell_at r' (column_index (V2.base_column c) h')) ->
     fst (V2.Where_eval w (mkStore h r []))
     = fst (V2.Where_eval w (mkStore h' r' []))
     /\ evaluated (snd (V2.Where_eval w (mkStore h r [])))
        = evaluated (snd (V2.Where_eval w (mkStore h' r' [])))).
Proof.
  split; intros w h h' r r' Hwf Hcells.
  - destruct (V1_eval_is_walk w Hwf) as (c0 & cs & Hc & Hlen & Hwalk).
    rewrite !Hwalk.
    rewrite !(walk_pwalk V1.base_eval V1.base_column V1.AND
                V1_base_eval_spec V1_value_of_touch). simpl.
    rewrite (pwalk_ext V1.base_eval V1.AND h h' r r'); [split; reflexivity|].
    rewrite map_snd_zip by assumption. rewrite <- Hc.
    intros c Hin. specialize (Hcells c Hin).
    destruct c as [T CT c]. unfold value_of. simpl in *.
    rewrite !V1_eval_spec. simpl. unfold V1_answer. rewrite Hcells. reflexivity.
  - destruct (V2_eval_is_walk w Hwf) as (c0 & cs & Hc & Hlen & Hwalk).
    rewrite !Hwalk.
    rewrite !(walk_pwalk V2.base_eval V2.base_column V2.Operator.AND
                V2_base_eval_spec V2_value_of_touch). simpl.
    rewrite (pwalk_ext V2.base_eval V2.Operator.AND h h' r r');
      [split; reflexivity|].
    rewrite map_snd_zip by assumption. rewrite <- Hc.
    intros c Hin. specialize (Hcells c Hin).
    destruct c as [T CT c]. unfold value_of. simpl in *.
    rewrite !V2_eval_spec. simpl. unfold V2_answer. rewrite Hcells. reflexivity.
Qed.

Lemma eval_reads_only_its_columns_witness :
  fst (V1.Where_eval v1_mixed on_jenny)
  = fst (V1.Where_eval v1_mixed
           (mkStore demo_header ["Jenny Ho"; "21"; "female"; "7"; "Acme"] []))
  /\
  fst (V2.Where_eval v2_mixed on_jenny)
  = fst (V2.Where_eval v2_mixed
           (mkStore demo_header ["Jenny Ho"; "21"; "female"; "7"; "Acme"] [])).
Proof.
  split.
  - apply (proj1 eval_reads_only_its_columns v1_mixed demo_header demo_header
             row_jenny ["Jenny Ho"; "21"; "female"; "7"; "Acme"]);
      [reflexivity|].
    intros c Hin.
    repeat (apply elem_of_cons in Hin as [->|Hin]; [vm_compute; reflexivity|]).
    apply elem_of_nil in Hin. destruct Hin.
  - apply (proj2 eval_reads_only_its_columns v2_mixed demo_header demo_header
             row_jenny ["Jenny Ho"; "21"; "female"; "7"; "Acme"]);
      [reflexivity|].
    intros c Hin.
    repeat (apply elem_of_cons in Hin as [->|Hin]; [vm_compute; reflexivity|]).
    apply elem_of_nil in Hin. destruct Hin.
Defined.

(** ** Predicates with only [OR] *)

Lemma psteps_or_true_first {C : Type} (ceval : C -> M bool) (AND : operator_t)
  (h : header_t) (r : row_t) (l : list (operator_t * C)) :
  forall i,
  Forall (fun o => o <> AND) (map fst l) ->
  fst (psteps ceval AND h r i false l) = Ok true ->
  exists k c,
    map snd l !! k = Some c
    /\ value_of ceval c h r = Ok true
    /\ (forall j c', (j < k)%nat -> map snd l !! j = Some c' ->
                     value_of ceval c' h r = Ok false).
Proof.
  induction l as [|[o c] l IH]; intros i Hops Hrun; simpl in *;
    [discriminate|].
  apply Forall_cons in Hops as [Ho Hops].
  destruct (Z.eqb_spec o AND) as [E|_]; [contradiction|].
  destruct (value_of ceval c h r) as [[|]|f] eqn:Hc; [| |discriminate].
  - exists 0%nat, c. split; [reflexivity|]. split; [exact Hc|].
    intros j c' Hj. lia.
  - specialize (IH (S i) Hops).
    destruct (psteps ceval AND h r (S i) false l) as [out vis]; simpl in *.
    destruct (IH Hrun) as (k & c1 & Hk & Hc1 & Hbefore).
    exists (S k), c1. split; [exact Hk|]. split; [exact Hc1|].
    intros j c' Hj Hl. destruct j as [|j].
    + simpl in Hl. injection Hl as <-. exact Hc.
    + apply (Hbefore j c'); [lia|exact Hl].
Qed.

Lemma pwalk_or_true_first {C : Type} (ceval : C -> M bool) (AND : operator_t)
  (h : header_t) (r : row_t) (c0 : C) (l : list (operator_t * C)) :
  Forall (fun o => o <> AND) (map fst l) ->
  fst (pwalk ceval AND h r c0 l) = Ok true ->
  exists k c,
    (c0 :: map snd l) !! k = Some c
    /\ value_of ceval c h r = Ok true
    /\ (forall j c', (j < k)%nat -> (c0 :: map snd l) !! j = Some c' ->
                     value_of ceval c' h r = Ok false).
Proof.
  intros Hops. unfold pwalk.
  destruct (value_of ceval c0 h r) as [[|]|f] eqn:Hc; [| |discriminate].
  - intros _. exists 0%nat, c0. split; [reflexivity|]. split; [exact Hc|].
    intros j c' Hj. lia.
  - pose proof (psteps_or_true_first ceval AND h r l 1 Hops) as Hl.
    destruct (psteps ceval AND h r 1 false l) as [out vis]; simpl in *.
    intros Hrun. destruct (Hl Hrun) as (k & c1 & Hk & Hc1 & Hbefore).
    exists (S k), c1. split; [exact Hk|]. split; [exact Hc1|].
    intros j c' Hj Hj'. destruct j as [|j].
    + simpl in Hj'. injection Hj' as <-. exact Hc.
    + apply (Hbefore j c'); [lia|exact Hj'].
Qed.

Lemma V2_in_range_returns (w : V2.Where) (s : store) :
  V2_well_formed w ->
  (forall c, c ∈ V2.conditions w ->
     is_Some (cell_at (row s) (column_index (V2.base_column c) (header s)))) ->
  exists b, fst (V2.Where_eval w s) = Ok b.
Proof.
  intros Hwf Hcells.
  destruct (fst (V2.Where_eval w s)) as [b|f] eqn:E; [exists b; reflexivity|].
  destruct (V2_fault_of_condition w s f Hwf E) as (c & Hin & Hc).
  destruct (Hcells c Hin) as [cell Hcell].
  destruct c as [T CT c]. unfold V2_holds in Hc. simpl in Hc, Hcell.
  rewrite V2_eval_spec in Hc. simpl in Hc. unfold V2_answer in Hc.
  rewrite Hcell in Hc. destruct (from_cell cell); discriminate Hc.
Qed.

(** C7 as stated fails in [where.cpp]: in [gender = 1 OR gender = "female"]
    on the row of Jenny Ho the second condition evaluates to true, yet
    [eval] does not return true: the conversion of the first condition
    throws and the exception leaves [eval]. *)
Lemma or_after_throwing_condition :
  V1_well_formed v1_poison_or
  /\ Forall (fun o => o = V1.OR) (V1.operators v1_poison_or)
  /\ Exists (fun c => V1_holds c (header on_jenny) (row on_jenny) = Ok true)
            (V1.conditions v1_poison_or)
  /\ fst (V1.Where_eval v1_poison_or on_jenny) = Fault (Throw invalid_argument).
Proof.
  split; [reflexivity|]. split; [repeat constructor|].
  split; [|vm_compute; reflexivity].
  apply Exists_cons_tl, Exists_cons_hd. vm_compute. reflexivity.
Qed.

(** C7, as the code has it.  With only [OR] operators on a well-formed
    predicate, [eval] returns true exactly when some condition evaluates to
    true and every condition before the first such one evaluates to false
    (none of them throws or indexes outside the row); it then has evaluated
    the conditions up to that one and none after.  Whenever [eval] returns a
    boolean, that boolean is true exactly when some condition is true.  In
    the reworked program, when the index of every condition's column is
    inside the row, [eval] does return a boolean. *)
Theorem only_or_first_true :
  (forall (w : V1.Where) (s : store),
     V1_well_formed w ->
     Forall (fun o => o = V1.OR) (V1.operators w) ->
     (fst (V1.Where_eval w s) = Ok true <->
      exists k c,
        V1.conditions w !! k = Some c
        /\ V1_holds c (header s) (row s) = Ok true
        /\ (forall j c', (j < k)%nat -> V1.conditions w !! j = Some c' ->
                         V1_holds c' (header s) (row s) = Ok false))
     /\
     (forall b, fst (V1.Where_eval w s) = Ok b ->
        (b = true <->
         Exists (fun c => V1_holds c (header s) (row s) = Ok true)
                (V1.conditions w)))
     /\
     (forall k c,
        V1.conditions w !! k = Some c ->
        V1_holds c (header s) (row s) = Ok true ->
        (forall j c', (j < k)%nat -> V1.conditions w !! j = Some c' ->
                      V1_holds c' (header s) (row s) = Ok false) ->
        fst (V1.Where_eval w s) = Ok true
        /\ evaluated (snd (V1.Where_eval w s))
           = (evaluated s ++ seq 0 (S k))%list))
  /\
  (forall (w : V2.Where) (s : store),
     V2_well_formed w ->
     Forall (fun o => o = V2.Operator.OR) (V2.operators w) ->
     (fst (V2.Where_eval w s) = Ok true <->
      exists k c,
        V2.conditions w !! k = Some c
        /\ V2_holds c (header s) (row s) = Ok true
        /\ (forall j c', (j < k)%nat -> V2.conditions w !! j = Some c' ->
                         V2_holds c' (header s) (row s) = Ok false))
     /\
     (forall b, fst (V2.Where_eval w s) = Ok b ->
        (b = true <->
         Exists (fun c => V2_holds c (header s) (row s) = Ok true)
                (V2.conditions w)))
     /\
     (forall k c,
        V2.conditions w !! k = Some c ->
        V2_holds c (header s) (row s) = Ok true ->
        (forall j c', (j < k)%nat -> V2.conditions w !! j = Some c' ->
                      V2_holds c' (header s) (row s) = Ok false) ->
        fst (V2.Where_eval w s) = Ok true
        /\ evaluated (snd (V2.Where_eval w s))
           = (evaluated s ++ seq 0 (S k))%list)
     /\
     ((forall c, c ∈ V2.conditions w ->
         is_Some (cell_at (row s)
                    (column_index (V2.base_column c) (header s)))) ->
      exists b,
        fst (V2.Where_eval w s) = Ok b
        /\ (b = true <->
            Exists (fun c => V2_holds c (header s) (row s) = Ok true)
                   (V2.conditions w)))).
Proof.
  split; intros w s Hwf Hops.
  - assert (Hops' : Forall (fun o => o <> V1.AND) (V1.operators w)).
    { eapply Forall_impl; [exact Hops|]. intros o ->. discriminate. }
    destruct (V1_eval_is_walk w Hwf) as (c0 & cs & Hc & Hlen & Hwalk).
    rewrite Hc, Hwalk.
    assert (Hfirst : forall k c,
      (c0 :: cs) !! k = Some c ->
      V1_holds c (header s) (row s) = Ok true ->
      (forall j c', (j < k)%nat -> (c0 :: cs) !! j = Some c' ->
                    V1_holds c' (header s) (row s) = Ok false) ->
      fst (walk V1.base_eval V1.AND c0 (zip (V1.operators w) cs) s) = Ok true
      /\ evaluated (snd (walk V1.base_eval V1.AND c0 (zip (V1.operators w) cs) s))
         = (evaluated s ++ seq 0 (S k))%list).
    { intros k c.
      exact (walk_or_first_true V1.base_eval V1.base_column V1.AND
               V1_base_eval_spec V1_value_of_touch c0 _ cs s k c Hlen Hops'). }
    split; [|split].
    + split.
      * rewrite (walk_pwalk V1.base_eval V1.base_column V1.AND
                   V1_base_eval_spec V1_value_of_touch). simpl.
        intros Hrun. apply pwalk_or_true_first in Hrun.
        -- rewrite map_snd_zip in Hrun by assumption. exact Hrun.
        -- rewrite map_fst_zip by assumption. exact Hops'.
      * intros (k & c & Hk & Hck & Hbefore).
        exact (proj1 (Hfirst k c Hk Hck Hbefore)).
    + intros b Hrun.
      destruct (walk V1.base_eval V1.AND c0 (zip (V1.operators w) cs) s)
        as [out s'] eqn:E. simpl in Hrun. subst out.
      exact (walk_or_iff V1.base_eval V1.base_column V1.AND
               V1_base_eval_spec V1_value_of_touch c0 _ cs s b s' Hlen Hops' E).
    + exact Hfirst.
  - assert (Hops' : Forall (fun o => o <> V2.Operator.AND) (V2.operators w)).
    { eapply Forall_impl; [exact Hops|]. intros o ->. discriminate. }
    pose proof (V2_in_range_returns w s Hwf) as Hreturns.
    destruct (V2_eval_is_walk w Hwf) as (c0 & cs & Hc & Hlen & Hwalk).
    rewrite Hc in *. rewrite Hwalk in *.
    assert (Hfirst : forall k c,
      (c0 :: cs) !! k = Some c ->
      V2_holds c (header s) (row s) = Ok true ->
      (forall j c', (j < k)%nat -> (c0 :: cs) !! j = Some c' ->
                    V2_holds c' (header s) (row s) = Ok false) ->
      fst (walk V2.base_eval V2.Operator.AND c0 (zip (V2.operators w) cs) s)
        = Ok true
      /\ evaluated (snd (walk V2.base_eval V2.Operator.AND c0
                           (zip (V2.operators w) cs) s))
         = (evaluated s ++ seq 0 (S k))%list).
    { intros k c.
      exact (walk_or_first_true V2.base_eval V2.base_column V2.Operator.AND
               V2_base_eval_spec V2_value_of_touch c0 _ cs s k c Hlen Hops'). }
    assert (Hiff : forall b,
      fst (walk V2.base_eval V2.Operator.AND c0 (zip (V2.operators w) cs) s)
        = Ok b ->
      (b = true <->
       Exists (fun c => V2_holds c (header s) (row s) = Ok true) (c0 :: cs))).
    { intros b Hrun.
      destruct (walk V2.base_eval V2.Operator.AND c0 (zip (V2.operators w) cs) s)
        as [out s'] eqn:E. simpl in Hrun. subst out.
      exact (walk_or_iff V2.base_eval V2.base_column V2.Operator.AND
               V2_base_eval_spec V2_value_of_touch c0 _ cs s b s' Hlen Hops' E). }
    split; [|split; [|split]].
    + split.
      * rewrite (walk_pwalk V2.base_eval V2.base_column V2.Operator.AND
                   V2_base_eval_spec V2_value_of_touch). simpl.
        intros Hrun. apply pwalk_or_true_first in Hrun.
        -- rewrite map_snd_zip in Hrun by assumption. exact Hrun.
        -- rewrite map_fst_zip by assumption. exact Hops'.
      * intros (k & c & Hk & Hck & Hbefore).
        exact (proj1 (Hfirst k c Hk Hck Hbefore)).
    + exact Hiff.
    + exact Hfirst.
    + intros Hcells. destruct (Hreturns Hcells) as [b Hb].
      exists b. split; [exact Hb|]. apply Hiff. exact Hb.
Qed.

Lemma only_or_first_true_witness :
  (fst (V1.Where_eval v1_all_or on_jenny) = Ok true
   /\ evaluated (snd (V1.Where_eval v1_all_or on_jenny)) = ([] ++ seq 0 2)%list)
  /\
  (fst (V2.Where_eval v2_all_or on_jenny) = Ok true
   /\ evaluated (snd (V2.Where_eval v2_all_or on_jenny)) = ([] ++ seq 0 2)%list)
  /\
  (exists b,
     fst (V2.Where_eval v2_poison_or on_jenny) = Ok b
     /\ (b = true <->
         Exists (fun c => V2_holds c (header on_jenny) (row on_jenny) = Ok true)
                (V2.conditions v2_poison_or))).
Proof.
  split; [|split].
  - destruct (proj1 only_or_first_true v1_all_or on_jenny)
      as (_ & _ & Hfirst).
    + reflexivity.
    + repeat constructor.
    + apply (Hfirst 1%nat (V1.AnyCondition (V1.mkCondition "gender" V1.EQ "female"))).
      * reflexivity.
      * vm_compute. reflexivity.
      * intros j c' Hj Hl. destruct j as [|j]; [|lia].
        injection Hl as <-. vm_compute. reflexivity.
  - destruct (proj2 only_or_first_true v2_all_or on_jenny)
      as (_ & _ & Hfirst & _).
    + reflexivity.
    + repeat constructor.
    + apply (Hfirst 1%nat
               (V2.AnyCondition (V2.mkCondition "gender" V2.Operator.EQ "female"))).
      * reflexivity.
      * vm_compute. reflexivity.
      * intros j c' Hj Hl. destruct j as [|j]; [|lia].
        injection Hl as <-. vm_compute. reflexivity.
  - destruct (proj2 only_or_first_true v2_poison_or on_jenny)
      as (_ & _ & _ & Hrange).
    + reflexivity.
    + repeat constructor.
    + apply Hrange. intros c Hin.
      repeat (apply elem_of_cons in Hin as [->|Hin]; [vm_compute; eauto|]).
      apply elem_of_nil in Hin. destruct Hin.
Defined.
